(** * gslib/daisy_chain_wrapper.py: the daisy-chain download/upload bridge

    A shallow embedding of [BufferWrapper] and [DaisyChainWrapper].

    The wrapper object is a record of its attributes.  The download thread
    ([PerformDownload]) and the caller of [read]/[tell]/[seek] are two lines
    of execution over that record; each has a program counter, and one
    [step] is one atomic action of one of them (one critical section of
    [self.lock], or one test outside it).  The fetch client
    ([gsutil_api.GetObjectMedia]) and [TRANSFER_BUFFER_SIZE] (gslib/util.py)
    are outside this file: they are section variables. *)

From Stdlib Require Import ZArith List Bool Lia.
From Stdlib.Strings Require Import Byte.
Import ListNotations.
Open Scope Z_scope.

(** ** Data *)

(** A chunk is a Python 2 [str]: the [data] handed to [BufferWrapper.write]. *)
Definition chunk := list byte.

Definition len (data : chunk) : Z := Z.of_nat (length data).

(** [sum(len(c) for c in buffer)] *)
Fixpoint total (chunks : list chunk) : Z :=
  match chunks with
  | [] => 0
  | c :: rest => len c + total rest
  end.

Definition DAISY_CHAIN_CHUNK_SIZE : Z := 1024 * 1024 * 100.

(** [os.SEEK_SET], [os.SEEK_END] *)
Definition SEEK_SET : Z := 0.
Definition SEEK_END : Z := 2.

Inductive exn :=
| BadRequestException
| IOError
| IndexError.            (* [deque.popleft()] on an empty deque *)

(** What a call has done when it gives the processor away: returned, raised,
    or reached [time.sleep(0)] inside one of its wait loops. *)
Inductive result (A : Type) :=
| Return (a : A)
| Raise (e : exn)
| Yield.
Arguments Return {A} a.
Arguments Raise {A} e.
Arguments Yield {A}.

(** *** The download thread

    Program counter of [PerformDownload].  [InMedia] is the thread inside a
    [GetObjectMedia] call: [pending] are the pieces the fetch client has yet
    to hand to [BufferWrapper.write], and [admitted] tells whether the
    write of the first of them has left the wait loop of lines 48-54 (the
    append of lines 56-58 is a separate critical section). *)
Inductive fetch :=
| Ranged (start_byte : Z)     (* lines 130-136, [end_byte = start_byte + CHUNK - 1] *)
| OpenEnded.                  (* lines 142-147 *)

Inductive thread :=
| AtWhile (start_byte : Z)                                   (* line 129 *)
| InMedia (k : fetch) (pending : list chunk) (admitted : bool)
| Dead.                                                      (* [is_alive()] is false *)

Definition is_alive (t : thread) : bool :=
  match t with Dead => false | _ => true end.

(** What one atomic action of the thread does to the world. *)
Inductive action :=
| Fetch (start_byte : Z) (end_byte : option Z)   (* [GetObjectMedia] is called *)
| Sleep                                          (* line 54: no room, [time.sleep(0)] *)
| Admit                                          (* line 52: [break] *)
| Append (data : chunk)                          (* lines 56-58 *)
| NextWindow                                     (* line 141 *)
| StopAck                                        (* lines 139-140 *)
| Finish.                                        (* return after line 147 *)

(** *** The wrapper object *)
Record bridge := Bridge {
  position : Z;
  buffer : list chunk;               (* the deque, leftmost first *)
  bytes_buffered : Z;
  max_buffer_size : Z;
  last_position : Z;
  last_data : option chunk;
  src_obj_size : Z;
  download_thread : thread;
  stop_download : bool               (* the [threading.Event] *)
}.

(** Assignment to the attributes that [self.lock] protects. *)
Definition locked (w : bridge) (pos : Z) (buf : list chunk) (bb : Z)
    (lp : Z) (ld : option chunk) : bridge :=
  Bridge pos buf bb (max_buffer_size w) lp ld (src_obj_size w)
         (download_thread w) (stop_download w).

Definition set_thread (w : bridge) (t : thread) (stop : bool) : bridge :=
  Bridge (position w) (buffer w) (bytes_buffered w) (max_buffer_size w)
         (last_position w) (last_data w) (src_obj_size w) t stop.

(** [StartDownloadThread(start_byte)], lines 150-152 *)
Definition StartDownloadThread (start_byte : Z) (w : bridge) : bridge :=
  set_thread w (AtWhile start_byte) (stop_download w).

(** [DaisyChainWrapper.__init__], lines 83-110 *)
Definition init (src_obj_size : Z) : bridge :=
  StartDownloadThread 0
    (Bridge 0 [] 0 (1024 * 1024) 0 None src_obj_size Dead false).

(** *** The caller of the file-like interface

    Where the (single) consumer is: outside any call, in the wait loop of
    [read] (lines 164-169), or in the restart loop of [seek] at its test
    (line 224) or in its body (lines 225-228). *)
Inductive consumer :=
| Idle
| Reading (amt : Z)
| SeekWait (offset : Z)
| SeekDrain (offset : Z).

Record system := System {
  wrapper : bridge;
  caller : consumer
}.

Inductive event :=
| Download                          (* the download thread runs one action *)
| Call_read (amt : option Z)
| Call_tell
| Call_seek (offset whence : Z)
| Resume.                           (* the consumer goes on with its call *)

Inductive value :=
| Bytes (data : chunk)
| Int (n : Z)
| NoneV.

Inductive outcome :=
| Ran (a : action)
| Returned (v : value)
| Raised (e : exn)
| Waiting.

(** ** A fetch client for the examples

    [GetObjectMedia] of a client that serves the object [obj] and hands the
    requested range to the sink in pieces of [piece] bytes. *)
Definition slice (obj : list byte) (start_byte : Z) (end_byte : option Z)
    : list byte :=
  let from := skipn (Z.to_nat start_byte) obj in
  match end_byte with
  | None => from
  | Some e => firstn (Z.to_nat (e - start_byte + 1)) from
  end.

Fixpoint pieces (fuel : nat) (piece : nat) (data : list byte) : list chunk :=
  match fuel with
  | O => []
  | S fuel' =>
      match data with
      | [] => []
      | _ => firstn piece data :: pieces fuel' piece (skipn piece data)
      end
  end.

Definition serve (obj : list byte) (piece : nat)
    (start_byte : Z) (end_byte : option Z) : list chunk :=
  let data := slice obj start_byte end_byte in
  pieces (length data) piece data.

(** A client that does what is asked of it: the pieces written for a range
    are, in order, the bytes of that range. *)
Definition delivers (obj : list byte)
    (GetObjectMedia : Z -> option Z -> list chunk) : Prop :=
  forall start_byte end_byte,
    0 <= start_byte ->
    concat (GetObjectMedia start_byte end_byte) = slice obj start_byte end_byte.

(** No piece is longer than [L]. *)
Definition pieces_within (L : Z)
    (GetObjectMedia : Z -> option Z -> list chunk) : Prop :=
  forall start_byte end_byte data,
    In data (GetObjectMedia start_byte end_byte) -> len data <= L.

Definition is_prefix (d l : list byte) : Prop := exists rest, l = d ++ rest.

(** *** Objects, clients and schedules of the examples *)

(** Five bytes, served two at a time. *)
Definition abcde : list byte := [x61; x62; x63; x64; x65].
Definition ab : chunk := [x61; x62].
Definition cd : chunk := [x63; x64].
Definition e_ : chunk := [x65].
Definition two_at_a_time : Z -> option Z -> list chunk := serve abcde 2.

(** A client that serves the two bytes of [ab] but first writes an empty
    string to its sink. *)
Definition hiccup : Z -> option Z -> list chunk := fun _ _ => [[]; ab].

(** An object of 250 bytes, served 100 at a time. *)
Definition object250 : list byte :=
  repeat x00 100 ++ repeat x01 100 ++ repeat x02 50.
Definition hundreds : Z -> option Z -> list chunk := serve object250 100.

(** An object of 131 * 8191 bytes, served 8191 at a time. *)
Definition big_size : Z := 131 * 8191.
Definition big_object : list byte := repeat x00 (Z.to_nat big_size).
Definition big_pieces : Z -> option Z -> list chunk :=
  serve big_object (Z.to_nat 8191).

(** One fetch, 129 writes (each an [Admit] and an [Append]); a read; one
    more write; a seek back to where the read began. *)
Definition overfill : list event :=
  repeat Download 259
  ++ [Call_read (Some 8192); Download; Download; Call_seek 0 SEEK_SET].

(** ** The program *)

Section DaisyChain.

(** [gslib.util.TRANSFER_BUFFER_SIZE] *)
Variable TRANSFER_BUFFER_SIZE : Z.

(** [gsutil_api.GetObjectMedia(..., start_byte, end_byte, ...)] with the
    wrapper's source object: the pieces it writes to its sink, in order. *)
Variable GetObjectMedia : Z -> option Z -> list chunk.

(** *** [PerformDownload], one action at a time

    The thread sees of the wrapper only [src_obj_size], the stop event and
    whether [bytes_buffered < max_buffer_size]. *)
Definition PerformDownload (size : Z) (stop : bool) (room : bool)
    (t : thread) : option (thread * action) :=
  match t with
  | AtWhile start_byte =>
      if start_byte + DAISY_CHAIN_CHUNK_SIZE <? size then
        let end_byte := Some (start_byte + DAISY_CHAIN_CHUNK_SIZE - 1) in
        Some (InMedia (Ranged start_byte)
                      (GetObjectMedia start_byte end_byte) false,
              Fetch start_byte end_byte)
      else
        Some (InMedia OpenEnded (GetObjectMedia start_byte None) false,
              Fetch start_byte None)
  | InMedia k (data :: rest) false =>
      if room then Some (InMedia k (data :: rest) true, Admit)
      else Some (t, Sleep)
  | InMedia k (data :: rest) true =>
      Some (InMedia k rest false, Append data)
  | InMedia (Ranged start_byte) [] _ =>
      if stop then Some (Dead, StopAck)
      else Some (AtWhile (start_byte + DAISY_CHAIN_CHUNK_SIZE), NextWindow)
  | InMedia OpenEnded [] _ => Some (Dead, Finish)
  | Dead => None
  end.

(** The action applied to the wrapper. *)
Definition perform (a : action) (w : bridge) : bridge :=
  match a with
  | Append data =>
      locked w (position w) (buffer w ++ [data])
             (bytes_buffered w + len data) (last_position w) (last_data w)
  | StopAck => set_thread w (download_thread w) false
  | _ => w
  end.

Definition download_tick (w : bridge) : option (bridge * action) :=
  match PerformDownload (src_obj_size w) (stop_download w)
          (bytes_buffered w <? max_buffer_size w) (download_thread w) with
  | Some (t, a) =>
      let w' := perform a w in
      Some (set_thread w' t (stop_download w'), a)
  | None => None
  end.

(** *** [read] *)

(** Lines 164-181: one turn of the wait loop, then the pop. *)
Definition read_wait (amt : Z) (w : bridge) : bridge * result chunk :=
  match buffer w with
  | [] => (w, Yield)
  | data :: rest =>
      let data_len := len data in
      let w' := locked w (position w + data_len) rest
                       (bytes_buffered w - data_len)
                       (position w) (Some data) in
      if data_len >? amt then (w', Raise BadRequestException)
      else (w', Return data)
  end.

Definition read (amt : option Z) (w : bridge) : bridge * result chunk :=
  if (position w =? src_obj_size w)
     || match amt with Some a => a =? 0 | None => false end
  then (w, Return [])
  else
    match amt with
    | None => (w, Raise BadRequestException)
    | Some a =>
        if a >? TRANSFER_BUFFER_SIZE then (w, Raise BadRequestException)
        else read_wait a w
    end.

(** *** [tell] *)
Definition tell (w : bridge) : bridge * result Z := (w, Return (position w)).

(** *** [seek] *)

(** Lines 226-227: [while self.bytes_buffered: ... popleft()]. *)
Fixpoint drain (buf : list chunk) (bb : Z) : list chunk * Z * bool :=
  if bb =? 0 then (buf, bb, true)
  else
    match buf with
    | [] => (buf, bb, false)                      (* [popleft] raises *)
    | data :: rest => drain rest (bb - len data)
    end.

(** Lines 225-228: the body of the restart loop. *)
Definition seek_drain (w : bridge) : bridge * result unit :=
  let '(buf, bb, ok) := drain (buffer w) (bytes_buffered w) in
  let w' := locked w (position w) buf bb (last_position w) (last_data w) in
  if ok then (w', Yield) else (w', Raise IndexError).

(** Lines 230-236: the thread has exited. *)
Definition seek_restart (offset : Z) (w : bridge) : bridge :=
  StartDownloadThread offset (locked w offset [] 0 0 None).

(** Lines 187-221 and 237-239.  [Yield] is the entry into the restart loop,
    with the stop event set. *)
Definition seek (offset whence : Z) (w : bridge) : bridge * result unit :=
  if whence =? SEEK_END then
    if negb (offset =? 0) then (w, Raise BadRequestException)
    else
      (locked w (src_obj_size w) (buffer w) (bytes_buffered w)
              (position w) None,
       Return tt)
  else if whence =? SEEK_SET then
    if offset =? position w then (w, Return tt)
    else if offset =? last_position w then
      match last_data w with
      | Some (b :: data) =>
          (locked w (last_position w) ((b :: data) :: buffer w)
                  (bytes_buffered w + len (b :: data))
                  (last_position w) (last_data w),
           Return tt)
      | _ =>
          (locked w (last_position w) (buffer w) (bytes_buffered w)
                  (last_position w) (last_data w),
           Return tt)
      end
    else (set_thread w (download_thread w) true, Yield)
  else (w, Raise IOError).

(** *** The two lines of execution together *)

Definition answer {A : Type} (inj : A -> value) (pending : consumer)
    (wr : bridge * result A) : option (system * outcome) :=
  match wr with
  | (w, Return a) => Some (System w Idle, Returned (inj a))
  | (w, Raise e) => Some (System w Idle, Raised e)
  | (w, Yield) => Some (System w pending, Waiting)
  end.

Definition step (e : event) (st : system) : option (system * outcome) :=
  let w := wrapper st in
  match e, caller st with
  | Download, c =>
      match download_tick w with
      | Some (w', a) => Some (System w' c, Ran a)
      | None => None
      end
  | Call_read amt, Idle =>
      answer Bytes (Reading (match amt with Some a => a | None => 0 end))
             (read amt w)
  | Call_tell, Idle => answer Int Idle (tell w)
  | Call_seek offset whence, Idle =>
      answer (fun _ => NoneV) (SeekWait offset) (seek offset whence w)
  | Resume, Reading amt => answer Bytes (Reading amt) (read_wait amt w)
  | Resume, SeekWait offset =>
      if is_alive (download_thread w) then
        Some (System w (SeekDrain offset), Waiting)
      else Some (System (seek_restart offset w) Idle, Returned NoneV)
  | Resume, SeekDrain offset =>
      answer (fun _ => NoneV) (SeekWait offset) (seek_drain w)
  | _, _ => None
  end.

(** A schedule is a list of events; [run] gives the state it leads to and
    what each event did, or [None] if some event was not possible. *)
Fixpoint run (evs : list event) (st : system)
    : option (system * list outcome) :=
  match evs with
  | [] => Some (st, [])
  | e :: evs' =>
      match step e st with
      | Some (st', o) =>
          match run evs' st' with
          | Some (st'', os) => Some (st'', o :: os)
          | None => None
          end
      | None => None
      end
  end.

(** The state a schedule leads to and what its events did ([st] itself and
    nothing if it cannot run). *)
Definition reached (evs : list event) (st : system) : system :=
  match run evs st with Some (st', _) => st' | None => st end.

Definition observed (evs : list event) (st : system) : list outcome :=
  match run evs st with Some (_, os) => os | None => [] end.

(** The fresh wrapper for an object of [size] bytes, nobody calling yet. *)
Definition start (size : Z) : system := System (init size) Idle.

(** *** The download thread on its own

    [PerformDownload] in an arbitrary environment: before each action the
    environment fixes what the thread will find in the stop event and in
    the room test of [write]. *)
Fixpoint PerformDownload_run (size : Z) (env : list (bool * bool))
    (t : thread) : thread * list action :=
  match env with
  | [] => (t, [])
  | (stop, room) :: env' =>
      match PerformDownload size stop room t with
      | Some (t', a) =>
          let (t'', acts) := PerformDownload_run size env' t' in
          (t'', a :: acts)
      | None => (t, [])
      end
  end.

(** The [GetObjectMedia] calls among the actions: [(start_byte, end_byte)]. *)
Fixpoint requests (acts : list action) : list (Z * option Z) :=
  match acts with
  | [] => []
  | Fetch s e :: acts' => (s, e) :: requests acts'
  | _ :: acts' => requests acts'
  end.

(** The fetches of an undisturbed download from [s] of an object of [n]
    bytes, in closed form: [windows s n] ranges of [DAISY_CHAIN_CHUNK_SIZE]
    bytes, then one range without an end. *)
Definition windows (s n : Z) : nat :=
  Z.to_nat ((n - s - 1) / DAISY_CHAIN_CHUNK_SIZE).

Definition window (s : Z) (k : nat) : Z * option Z :=
  (s + Z.of_nat k * DAISY_CHAIN_CHUNK_SIZE,
   Some (s + Z.of_nat k * DAISY_CHAIN_CHUNK_SIZE + DAISY_CHAIN_CHUNK_SIZE - 1)).

Definition plan (s n : Z) : list (Z * option Z) :=
  map (window s) (seq 0 (windows s n))
  ++ [(s + Z.of_nat (windows s n) * DAISY_CHAIN_CHUNK_SIZE, None)].

(** The part of the plan that a thread at [t] has not asked for yet. *)
Definition ahead (n : Z) (t : thread) : list (Z * option Z) :=
  match t with
  | AtWhile start_byte => plan start_byte n
  | InMedia (Ranged start_byte) _ _ =>
      plan (start_byte + DAISY_CHAIN_CHUNK_SIZE) n
  | InMedia OpenEnded _ _ => []
  | Dead => []
  end.

(** The actions of a write (lines 48-58): the room test, failed or passed,
    and the append. *)
Definition writing (a : action) : Prop :=
  match a with
  | Sleep | Admit | Append _ => True
  | _ => False
  end.

(** The actions of a run, each with what the environment showed the thread
    when it took it: the stop event and the room test. *)
Definition seen (env : list (bool * bool)) (acts : list action)
    : list ((bool * bool) * action) :=
  combine env acts.

(** *** Words for the statements *)

(** An outcome after which the call of the consumer, if any, is still
    going on. *)
Definition unfinished (o : outcome) : Prop :=
  match o with
  | Ran _ | Waiting => True
  | Returned _ | Raised _ => False
  end.

(** What the download thread may have done to [w] by the time it is [w']:
    chunks added at the right end of the deque, nothing else of what the
    lock protects. *)
Definition fed (w w' : bridge) : Prop :=
  position w' = position w /\ last_position w' = last_position w /\
  last_data w' = last_data w /\ src_obj_size w' = src_obj_size w /\
  max_buffer_size w' = max_buffer_size w /\
  exists added, buffer w' = buffer w ++ added /\
                bytes_buffered w' = bytes_buffered w + total added.

(** The conditions under which [read(amt)] gets to its wait loop. *)
Definition read_entry (amt : Z) (w : bridge) : Prop :=
  position w <> src_obj_size w /\ amt <> 0 /\ amt <= TRANSFER_BUFFER_SIZE.

(** The step was a completed seek to the end, or the completion of a
    restart: a call of [seek] with [os.SEEK_END] that returned, or a
    resumed call that returned [None]. *)
Definition clears (e : event) (o : outcome) : Prop :=
  match e, o with
  | Call_seek _ whence, Returned _ => whence = SEEK_END
  | Resume, Returned NoneV => True
  | _, _ => False
  end.

(** The step from [st1] to [st2] was a read popping [c]: it returned [c],
    or raised because [c] was longer than asked for. *)
Definition popped_by (e : event) (st1 st2 : system) (o : outcome)
    (c : chunk) : Prop :=
  step e st1 = Some (st2, o) /\
  (e = Resume \/ exists amt, e = Call_read amt) /\
  buffer (wrapper st1) = c :: buffer (wrapper st2) /\
  (o = Returned (Bytes c) \/ o = Raised BadRequestException).

Definition none_clears (evs : list event) (os : list outcome) : Prop :=
  Forall (fun eo => ~ clears (fst eo) (snd eo)) (combine evs os).

(** *** The byte counter *)

(** The chunk of a write that has passed the room test and not yet
    appended. *)
Definition in_flight (t : thread) : Z :=
  match t with
  | InMedia _ pending admitted =>
      if admitted
      then match pending with data :: _ => len data | [] => 0 end
      else 0
  | _ => 0
  end.

(** What a seek back to [last_position] would put back on the deque. *)
Definition replayable (w : bridge) : Z :=
  if position w =? last_position w then 0
  else match last_data w with Some c => len c | None => 0 end.

Definition all_within (L : Z) (chunks : list chunk) : Prop :=
  Forall (fun c => len c <= L) chunks.

Definition bounded (L : Z) (st : system) : Prop :=
  let w := wrapper st in
  0 < max_buffer_size w /\
  bytes_buffered w + in_flight (download_thread w) + replayable w
    <= max_buffer_size w - 1 + (L + L) /\
  all_within L (buffer w) /\
  (forall c, last_data w = Some c -> len c <= L) /\
  match download_thread w with
  | InMedia _ pending _ => all_within L pending
  | _ => True
  end.

(** *** The position *)

(** Bytes the thread at [t] may still write, on an object of [n] bytes. *)
Definition todo (n : Z) (t : thread) : Z :=
  match t with
  | AtWhile start_byte => n - start_byte
  | InMedia (Ranged start_byte) pending _ =>
      total pending + (n - (start_byte + DAISY_CHAIN_CHUNK_SIZE))
  | InMedia OpenEnded pending _ => total pending
  | Dead => 0
  end.

Definition thread_ok (n : Z) (t : thread) : Prop :=
  match t with
  | AtWhile start_byte => 0 <= start_byte <= n
  | InMedia (Ranged start_byte) _ _ =>
      0 <= start_byte /\ start_byte + DAISY_CHAIN_CHUNK_SIZE < n
  | _ => True
  end.

Definition ld_len (ld : option chunk) : Z :=
  match ld with Some c => len c | None => 0 end.

(** The wrapper's part: position and [last_position] inside the object,
    the byte counter in step with the deque, and enough of the object left
    for everything that is buffered or still to come, both from the
    position and from where a seek back would put it. *)
Definition in_range (w : bridge) : Prop :=
  let n := src_obj_size w in
  let t := todo n (download_thread w) in
  0 <= position w <= n /\
  0 <= last_position w <= n /\
  bytes_buffered w = total (buffer w) /\
  thread_ok n (download_thread w) /\
  (position w = n \/ position w + bytes_buffered w + t <= n) /\
  (position w <> last_position w ->
   last_position w = n \/
   last_position w + bytes_buffered w + ld_len (last_data w) + t <= n).

(** The caller's part: a read that waits is not at the end of the object,
    a restart goes to an offset inside the object. *)
Definition caller_ok (w : bridge) (c : consumer) : Prop :=
  match c with
  | Idle => True
  | Reading _ => position w <> src_obj_size w
  | SeekWait offset | SeekDrain offset => 0 <= offset <= src_obj_size w
  end.

(** The offsets of the seeks from the start lie inside the object. *)
Definition seeks_within (n : Z) (e : event) : Prop :=
  match e with
  | Call_seek offset whence => whence = SEEK_SET -> 0 <= offset <= n
  | _ => True
  end.

(** The fetch client writes no more than the range asked for holds. *)
Definition fetch_fits (n : Z) : Prop :=
  (forall sb, 0 <= sb ->
     total (GetObjectMedia sb (Some (sb + DAISY_CHAIN_CHUNK_SIZE - 1)))
       <= DAISY_CHAIN_CHUNK_SIZE) /\
  (forall sb, 0 <= sb <= n -> total (GetObjectMedia sb None) <= n - sb).

Definition sound (n : Z) (st : system) : Prop :=
  src_obj_size (wrapper st) = n /\
  in_range (wrapper st) /\
  caller_ok (wrapper st) (caller st).

(** *** After a restart *)

(** What is on the deque, followed by what the thread will yet write, is
    the object from [offset] on (or, of a thread that has exited, what is
    on the deque is the beginning of that). *)
Definition upstream (obj : list byte) (offset : Z) (w : bridge) : Prop :=
  let from := skipn (Z.to_nat offset) obj in
  match download_thread w with
  | AtWhile sb =>
      0 <= sb /\ concat (buffer w) ++ skipn (Z.to_nat sb) obj = from
  | InMedia (Ranged sb) pending _ =>
      0 <= sb /\
      concat (buffer w) ++ concat pending
        ++ skipn (Z.to_nat (sb + DAISY_CHAIN_CHUNK_SIZE)) obj = from
  | InMedia OpenEnded pending _ =>
      concat (buffer w) ++ concat pending = from
  | Dead => is_prefix (concat (buffer w)) from
  end.

(** No chunk has been taken off the deque since the restart: the consumer
    has been idle or waiting in a read (or has gone into another restart). *)
Definition streaming (obj : list byte) (offset : Z) (st : system) : Prop :=
  match caller st with
  | Idle | Reading _ => upstream obj offset (wrapper st)
  | SeekWait _ | SeekDrain _ => True
  end.

Definition seeking (offset : Z) (st : system) : Prop :=
  caller st = SeekWait offset \/ caller st = SeekDrain offset.


(** *** Words for further statements *)

(** The bytes the reads of a schedule returned, in order, and what the
    download thread did. *)
Fixpoint returned (os : list outcome) : list byte :=
  match os with
  | [] => []
  | Returned (Bytes d) :: os' => d ++ returned os'
  | _ :: os' => returned os'
  end.

Fixpoint actions (os : list outcome) : list action :=
  match os with
  | [] => []
  | Ran a :: os' => a :: actions os'
  | _ :: os' => actions os'
  end.

(** Schedules without a call of [seek]; outcomes other than a raise. *)
Definition seek_free (e : event) : Prop :=
  match e with Call_seek _ _ => False | _ => True end.

Definition quiet (o : outcome) : Prop :=
  match o with Raised _ => False | _ => True end.

(** What [__init__] fixes for good, and the byte counter in step with the
    deque. *)
Definition counted (size : Z) (st : system) : Prop :=
  src_obj_size (wrapper st) = size /\
  max_buffer_size (wrapper st) = 1024 * 1024 /\
  bytes_buffered (wrapper st) = total (buffer (wrapper st)).

(** Nobody has asked the download thread to stop and the consumer is not
    in a restart. *)
Definition undisturbed (st : system) : Prop :=
  stop_download (wrapper st) = false /\
  match caller st with
  | Idle | Reading _ => True
  | SeekWait _ | SeekDrain _ => False
  end.

(** The reads so far returned [acc], the first [position] bytes of the
    object, and the rest of the object is on the deque or yet to be written
    by the thread. *)
Definition intact (obj : list byte) (acc : list byte) (w : bridge) : Prop :=
  let from := skipn (Z.to_nat (position w)) obj in
  0 <= position w /\
  position w = len acc /\
  acc ++ from = obj /\
  upstream obj (position w) w /\
  (download_thread w = Dead -> concat (buffer w) = from).

(** Every chunk on the deque, and the chunk kept for the seek back, is one
    of the chunks that the writes among [acts] appended. *)
Definition known (acts : list action) (w : bridge) : Prop :=
  Forall (fun c => In (Append c) acts) (buffer w) /\
  (forall c, last_data w = Some c -> In (Append c) acts).

(** [P] holds of every event of the schedule and the state it finds. *)
Fixpoint along (P : event -> system -> Prop) (evs : list event)
    (st : system) : Prop :=
  match evs with
  | [] => True
  | e :: evs' =>
      P e st /\
      match step e st with
      | Some (st', _) => along P evs' st'
      | None => True
      end
  end.

(** The event is not a seek that puts [last_data] back on the deque
    (lines 203-209 with a non-empty [last_data]). *)
Definition no_push_back (e : event) (st : system) : Prop :=
  match e with
  | Call_seek offset whence =>
      ~ (whence = SEEK_SET /\
         offset <> position (wrapper st) /\
         offset = last_position (wrapper st) /\
         exists b d, last_data (wrapper st) = Some (b :: d))
  | _ => True
  end.

Definition bounded1 (L : Z) (st : system) : Prop :=
  let w := wrapper st in
  0 < max_buffer_size w /\
  bytes_buffered w + in_flight (download_thread w)
    <= max_buffer_size w - 1 + L /\
  all_within L (buffer w) /\
  match download_thread w with
  | InMedia _ pending _ => all_within L pending
  | _ => True
  end.

(** The consumer is outside [seek]. *)
Definition settled (st : system) : Prop :=
  match caller st with
  | Idle | Reading _ => True
  | SeekWait _ | SeekDrain _ => False
  end.


(** *** A whole copy *)

(** A chunk that a read of [TRANSFER_BUFFER_SIZE] bytes takes: not empty
    and not longer than that. *)
Definition fits (c : chunk) : Prop :=
  c <> [] /\ len c <= TRANSFER_BUFFER_SIZE.

Definition pieces_fit : Prop :=
  forall start_byte end_byte d,
    In d (GetObjectMedia start_byte end_byte) -> fits d.

Definition sized (w : bridge) : Prop :=
  Forall fits (buffer w) /\
  match download_thread w with
  | InMedia _ pending _ => Forall fits pending
  | _ => True
  end.

(** Steps left to a copy in which each chunk is read as soon as it is on
    the deque: for a fetch, the call, its return, and for each piece the
    room test, the append and the read. *)
Definition fetch_cost (r : Z * option Z) : nat :=
  2 + 3 * length (GetObjectMedia (fst r) (snd r)).

Definition pend_cost (pending : list chunk) (admitted : bool) : nat :=
  match pending with
  | [] => 0
  | _ :: rest => (if admitted then 2 else 3) + 3 * length rest
  end.

Definition work (n : Z) (t : thread) : nat :=
  match t with
  | AtWhile sb => list_sum (map fetch_cost (plan sb n))
  | InMedia (Ranged sb) pending admitted =>
      pend_cost pending admitted + 1
      + list_sum (map fetch_cost (plan (sb + DAISY_CHAIN_CHUNK_SIZE) n))
  | InMedia OpenEnded pending admitted => pend_cost pending admitted + 1
  | Dead => 0
  end.

Definition steps_left (st : system) : nat :=
  length (buffer (wrapper st))
  + work (src_obj_size (wrapper st)) (download_thread (wrapper st)).

(** What the copy keeps between its steps. *)
Definition copying (obj acc : list byte) (st : system) : Prop :=
  caller st = Idle /\
  stop_download (wrapper st) = false /\
  counted (len obj) st /\
  intact obj acc (wrapper st) /\
  sized (wrapper st).

(** ** Properties of single calls *)

Lemma len_nonneg (data : chunk) : 0 <= len data.
Proof. unfold len; lia. Qed.

Lemma total_nonneg (chunks : list chunk) : 0 <= total chunks.
Proof.
  induction chunks as [|c rest IH]; simpl; [lia|].
  pose proof (len_nonneg c); lia.
Qed.

Lemma total_app (xs ys : list chunk) : total (xs ++ ys) = total xs + total ys.
Proof. induction xs as [|c rest IH]; simpl; lia. Qed.

Lemma fed_refl (w : bridge) : fed w w.
Proof.
  repeat split. exists []. rewrite app_nil_r. simpl. split; [reflexivity|lia].
Qed.

Lemma fed_trans (w1 w2 w3 : bridge) : fed w1 w2 -> fed w2 w3 -> fed w1 w3.
Proof.
  intros (A1 & A2 & A3 & A4 & A5 & x & A6 & A7)
         (B1 & B2 & B3 & B4 & B5 & y & B6 & B7).
  repeat split; try congruence.
  exists (x ++ y). rewrite B6, A6, B7, A7, total_app, app_assoc. split; [reflexivity|lia].
Qed.

(** The download thread never touches the consumer's side of the wrapper,
    and only ever appends at the right end of the deque. *)
Lemma download_tick_frame (w w' : bridge) (a : action) :
  download_tick w = Some (w', a) -> fed w w'.
Proof.
  unfold download_tick.
  destruct (PerformDownload _ _ _ _) as [[t b]|] eqn:E; [|discriminate].
  intros H; inversion H; subst; clear H.
  destruct a; simpl; repeat split; try reflexivity;
    try (exists []; rewrite app_nil_r; simpl; split; [reflexivity|lia]).
  exists [data]; simpl; split; [reflexivity|lia].
Qed.

(** Any number of actions of the download thread alone. *)
Lemma downloads_frame (n : nat) : forall st st' os,
  run (repeat Download n) st = Some (st', os) ->
  caller st' = caller st /\ fed (wrapper st) (wrapper st').
Proof.
  induction n as [|n IH]; simpl; intros st st' os H.
  - inversion H; subst. split; [reflexivity|apply fed_refl].
  - destruct (download_tick (wrapper st)) as [[w1 a]|] eqn:E; [|discriminate].
    destruct (run (repeat Download n) (System w1 (caller st)))
      as [[st2 os2]|] eqn:R; [|discriminate].
    inversion H; subst; clear H.
    apply IH in R. simpl in R. destruct R as (Hc & F).
    split; [exact Hc|].
    eapply fed_trans; [eapply download_tick_frame; eassumption|exact F].
Qed.

(** C8.  [seek(0, os.SEEK_END)] records the position as [last_position],
    clears [last_data] and moves the position to [src_obj_size]; deque,
    byte counter, thread and stop event stay as they were; [tell] then gives
    [src_obj_size], and a [read] (of any amount, after any number of actions
    of the download thread) returns the empty string at once.  A non-zero
    offset from [os.SEEK_END] raises [BadRequestException]. *)
Theorem seek_end_spec (st : system) :
  caller st = Idle ->
  let w := wrapper st in
  let w' := locked w (src_obj_size w) (buffer w) (bytes_buffered w)
                   (position w) None in
  seek 0 SEEK_END w = (w', Return tt) /\
  step (Call_seek 0 SEEK_END) st = Some (System w' Idle, Returned NoneV) /\
  position w' = src_obj_size w /\ last_position w' = position w /\
  last_data w' = None /\ buffer w' = buffer w /\
  bytes_buffered w' = bytes_buffered w /\
  download_thread w' = download_thread w /\
  stop_download w' = stop_download w /\
  step Call_tell (System w' Idle)
    = Some (System w' Idle, Returned (Int (src_obj_size w))) /\
  (forall n st2 os amt,
      run (repeat Download n) (System w' Idle) = Some (st2, os) ->
      step (Call_read amt) st2 = Some (st2, Returned (Bytes []))) /\
  (forall offset, offset <> 0 ->
      seek offset SEEK_END w = (w, Raise BadRequestException) /\
      step (Call_seek offset SEEK_END) st = Some (st, Raised BadRequestException)).
Proof.
  intros Hc w w'. destruct st as [w0 c]. simpl in Hc, w. subst c.
  repeat split.
  - intros n st2 os amt R. apply downloads_frame in R. simpl in R.
    destruct R as (Hc & Hp & _ & _ & Hs & _).
    destruct st2 as [w2 c2]. simpl in *. subst c2.
    unfold read. rewrite Hp, Hs, Z.eqb_refl. reflexivity.
  - unfold seek. simpl. destruct (Z.eqb_spec offset 0); [contradiction|reflexivity].
  - simpl. unfold seek. simpl.
    destruct (Z.eqb_spec offset 0); [contradiction|reflexivity].
Qed.

(** C9.  When [read(amt)] pops a chunk longer than [amt], it raises
    [BadRequestException] with the wrapper already changed: the chunk is off
    the deque, the position is advanced and the byte counter lowered by its
    length, and [last_position]/[last_data] hold the old position and the
    chunk.  The same holds when the pop comes after a wait. *)
Theorem read_oversized_not_atomic (w : bridge) (amt : Z) (data : chunk)
    (rest : list chunk) :
  position w <> src_obj_size w ->
  amt <> 0 ->
  amt <= TRANSFER_BUFFER_SIZE ->
  buffer w = data :: rest ->
  len data > amt ->
  let w' := locked w (position w + len data) rest
                   (bytes_buffered w - len data) (position w) (Some data) in
  read (Some amt) w = (w', Raise BadRequestException) /\
  step (Call_read (Some amt)) (System w Idle)
    = Some (System w' Idle, Raised BadRequestException) /\
  step Resume (System w (Reading amt))
    = Some (System w' Idle, Raised BadRequestException) /\
  buffer w' = rest /\
  position w' = position w + len data /\
  bytes_buffered w' = bytes_buffered w - len data /\
  last_position w' = position w /\
  last_data w' = Some data /\
  w' <> w.
Proof.
  intros Hp Ha Hle Hb Hgt w'.
  assert (R : read_wait amt w = (w', Raise BadRequestException)).
  { unfold read_wait. rewrite Hb.
    destruct (Z.gtb_spec (len data) amt); [reflexivity|lia]. }
  assert (Rd : read (Some amt) w = (w', Raise BadRequestException)).
  { unfold read.
    destruct (Z.eqb_spec (position w) (src_obj_size w)); [contradiction|].
    destruct (Z.eqb_spec amt 0); [contradiction|]. simpl.
    destruct (Z.gtb_spec amt TRANSFER_BUFFER_SIZE); [lia|exact R]. }
  repeat split; try reflexivity; try assumption.
  - simpl. now rewrite Rd.
  - simpl. now rewrite R.
  - intros E. apply (f_equal buffer) in E. simpl in E. rewrite Hb in E.
    apply (f_equal (@length chunk)) in E. simpl in E. lia.
Qed.

(** C10.  A [seek] that raises on its arguments (a non-zero offset from
    [os.SEEK_END], or a [whence] that is neither [os.SEEK_SET] nor
    [os.SEEK_END], which raises [IOError]) leaves the whole state, wrapper
    and thread, as it was. *)
Theorem seek_invalid_unchanged (st : system) (offset whence : Z) :
  caller st = Idle ->
  (offset <> 0 ->
     seek offset SEEK_END (wrapper st) = (wrapper st, Raise BadRequestException) /\
     step (Call_seek offset SEEK_END) st = Some (st, Raised BadRequestException)) /\
  (whence <> SEEK_SET -> whence <> SEEK_END ->
     seek offset whence (wrapper st) = (wrapper st, Raise IOError) /\
     step (Call_seek offset whence) st = Some (st, Raised IOError)).
Proof.
  intros Hc. destruct st as [w c]. simpl in *. subst c. split.
  - intros Ho. unfold seek. simpl.
    destruct (Z.eqb_spec offset 0); [contradiction|]. split; reflexivity.
  - intros H1 H2. unfold seek.
    destruct (Z.eqb_spec whence SEEK_END); [contradiction|].
    destruct (Z.eqb_spec whence SEEK_SET); [contradiction|]. split; reflexivity.
Qed.

(** C3 (as the code has it).  At the end of the object ([position ==
    src_obj_size]) [read] returns the empty string whatever [amt] is, and
    [read(0)] returns the empty string everywhere.  Elsewhere: an absent
    [amt] and an [amt] above [TRANSFER_BUFFER_SIZE] raise
    [BadRequestException] at once and change nothing; a negative [amt] is
    not rejected on entry: the call waits for a chunk, pops it and raises
    [BadRequestException] only then. *)
Theorem read_amt_spec (w : bridge) :
  (position w = src_obj_size w -> forall amt, read amt w = (w, Return [])) /\
  read (Some 0) w = (w, Return []) /\
  (position w <> src_obj_size w ->
     read None w = (w, Raise BadRequestException) /\
     (forall amt, amt <> 0 -> amt > TRANSFER_BUFFER_SIZE ->
        read (Some amt) w = (w, Raise BadRequestException)) /\
     (forall amt, amt < 0 -> amt <= TRANSFER_BUFFER_SIZE ->
        (buffer w = [] -> read (Some amt) w = (w, Yield)) /\
        (forall data rest, buffer w = data :: rest ->
           read (Some amt) w
           = (locked w (position w + len data) rest
                     (bytes_buffered w - len data) (position w) (Some data),
              Raise BadRequestException)))).
Proof.
  split; [|split].
  - intros E amt. unfold read. rewrite E, Z.eqb_refl. reflexivity.
  - unfold read. simpl. rewrite orb_true_r. reflexivity.
  - intros N. unfold read.
    destruct (Z.eqb_spec (position w) (src_obj_size w)); [contradiction|].
    simpl. split; [reflexivity|]. split.
    + intros amt H0 Hgt. destruct (Z.eqb_spec amt 0); [contradiction|].
      destruct (Z.gtb_spec amt TRANSFER_BUFFER_SIZE); [reflexivity|lia].
    + intros amt Hneg Hle. destruct (Z.eqb_spec amt 0); [lia|].
      destruct (Z.gtb_spec amt TRANSFER_BUFFER_SIZE); [lia|].
      unfold read_wait. split.
      * intros ->. reflexivity.
      * intros data rest ->. pose proof (len_nonneg data).
        destruct (Z.gtb_spec (len data) amt); [reflexivity|lia].
Qed.

(** ** The download thread on its own *)

Lemma chunk_size_pos : 0 < DAISY_CHAIN_CHUNK_SIZE.
Proof. reflexivity. Qed.

(** The closed form follows the loop of [PerformDownload]. *)
Lemma plan_unfold (s n : Z) :
  plan s n =
  if s + DAISY_CHAIN_CHUNK_SIZE <? n
  then (s, Some (s + DAISY_CHAIN_CHUNK_SIZE - 1))
       :: plan (s + DAISY_CHAIN_CHUNK_SIZE) n
  else [(s, None)].
Proof.
  pose proof chunk_size_pos as HR.
  unfold plan. destruct (Z.ltb_spec (s + DAISY_CHAIN_CHUNK_SIZE) n) as [H|H].
  - assert (W : windows s n = S (windows (s + DAISY_CHAIN_CHUNK_SIZE) n)).
    { unfold windows.
      replace (n - s - 1)
        with (n - (s + DAISY_CHAIN_CHUNK_SIZE) - 1 + 1 * DAISY_CHAIN_CHUNK_SIZE)
        by lia.
      rewrite Z.div_add by lia.
      assert (0 <= (n - (s + DAISY_CHAIN_CHUNK_SIZE) - 1) / DAISY_CHAIN_CHUNK_SIZE)
        by (apply Z.div_pos; lia).
      rewrite Z2Nat.inj_add by lia. simpl. lia. }
    rewrite W. simpl seq. rewrite <- seq_shift. cbn [map app].
    rewrite map_map. f_equal; [|f_equal].
    + unfold window. f_equal; [|f_equal]; lia.
    + apply map_ext. intros k. unfold window. f_equal; [|f_equal]; lia.
    + f_equal. f_equal. lia.
  - assert (W : windows s n = O).
    { unfold windows.
      destruct (Z.le_gt_cases 0 (n - s - 1)) as [P|P].
      - rewrite Z.div_small by lia. reflexivity.
      - assert ((n - s - 1) / DAISY_CHAIN_CHUNK_SIZE < 0)
          by (apply Z.div_lt_upper_bound; lia).
        lia. }
    rewrite W. simpl. f_equal. f_equal. lia.
Qed.

(** The closed form says what the claim says: before each of the [windows]
    ranges more than one range is left, before the last fetch at most one. *)
Lemma windows_remaining (s n : Z) :
  (forall k, (k < windows s n)%nat ->
     n - (s + Z.of_nat k * DAISY_CHAIN_CHUNK_SIZE) > DAISY_CHAIN_CHUNK_SIZE) /\
  n - (s + Z.of_nat (windows s n) * DAISY_CHAIN_CHUNK_SIZE)
    <= DAISY_CHAIN_CHUNK_SIZE.
Proof.
  pose proof chunk_size_pos as HR. unfold windows.
  set (q := (n - s - 1) / DAISY_CHAIN_CHUNK_SIZE).
  pose proof (Z.div_mod (n - s - 1) DAISY_CHAIN_CHUNK_SIZE ltac:(lia)) as D.
  pose proof (Z.mod_pos_bound (n - s - 1) DAISY_CHAIN_CHUNK_SIZE HR) as M.
  fold q in D. split.
  - intros k Hk. assert (Z.of_nat k < q) by lia. nia.
  - destruct (Z.le_gt_cases 0 q).
    + rewrite Z2Nat.id by lia. nia.
    + replace (Z.to_nat q) with O by lia. simpl. nia.
Qed.

Lemma PerformDownload_ahead (n : Z) (stop room : bool) (t t' : thread)
    (a : action) :
  PerformDownload n stop room t = Some (t', a) ->
  (a = StopAck /\ t' = Dead /\ stop = true) \/
  (a <> StopAck /\ requests [a] ++ ahead n t' = ahead n t).
Proof.
  destruct t as [sb|k pending adm|]; [| |discriminate].
  - simpl. rewrite (plan_unfold sb n).
    destruct (sb + DAISY_CHAIN_CHUNK_SIZE <? n); intros H; inversion H; subst;
      right; split; try discriminate; reflexivity.
  - destruct k as [sb|], pending as [|data rest], adm, stop, room; simpl;
      intros H; inversion H; subst;
      solve [ left; auto
            | right; split; [discriminate|reflexivity] ].
Qed.

Lemma requests_app (xs ys : list action) :
  requests (xs ++ ys) = requests xs ++ requests ys.
Proof.
  induction xs as [|a xs IH]; simpl; [reflexivity|].
  destruct a; simpl; rewrite IH; reflexivity.
Qed.

(** In any environment the thread asks for a prefix of its plan; the
    acknowledgement of a stop, if there is one, is its last action. *)
Lemma PerformDownload_run_prefix (n : Z) (env : list (bool * bool)) :
  forall t t' acts,
    PerformDownload_run n env t = (t', acts) ->
    (~ In StopAck acts /\ requests acts ++ ahead n t' = ahead n t) \/
    (t' = Dead /\ exists before rest,
        acts = before ++ [StopAck] /\ ~ In StopAck before /\
        ahead n t = requests before ++ rest).
Proof.
  induction env as [|[stop room] env IH]; simpl; intros t t' acts H.
  - inversion H; subst. left. split; [intros []|reflexivity].
  - destruct (PerformDownload n stop room t) as [[t1 a]|] eqn:E.
    + destruct (PerformDownload_run n env t1) as [t2 acts2] eqn:R.
      inversion H; subst; clear H.
      destruct (PerformDownload_ahead _ _ _ _ _ _ E) as [(Ea & Et & _)|(Na & Ea)].
      * subst. destruct env as [|[s2 r2] env]; simpl in R;
          inversion R; subst; right; (split; [reflexivity|]);
          exists [], (ahead n t); repeat split; auto.
      * destruct (IH _ _ _ R) as [(NI & EQ)|(Ed & before & rest & E1 & NI & E2)].
        -- left. split.
           ++ intros [X|X]; [congruence|contradiction].
           ++ change (a :: acts2) with ([a] ++ acts2).
              rewrite requests_app, <- app_assoc, EQ. exact Ea.
        -- right. split; [exact Ed|].
           exists (a :: before), rest. subst acts2. repeat split.
           ++ intros [X|X]; [congruence|contradiction].
           ++ change (a :: before) with ([a] ++ before).
              rewrite requests_app, <- app_assoc, <- E2. now rewrite Ea.
    + inversion H; subst. left. split; [intros []|reflexivity].
Qed.

(** With room in the buffer the pieces of a fetch go through in two
    actions each, an [Admit] and an [Append]. *)
Lemma PerformDownload_run_writes (n : Z) (k : fetch) (stop : bool) :
  forall pending env,
    exists acts,
      PerformDownload_run n (repeat (stop, true) (2 * length pending) ++ env)
                          (InMedia k pending false)
      = (fst (PerformDownload_run n env (InMedia k [] false)),
         acts ++ snd (PerformDownload_run n env (InMedia k [] false))) /\
      requests acts = [] /\ ~ In StopAck acts.
Proof.
  induction pending as [|data rest IH]; intros env.
  - exists []. simpl. split; [|split; [reflexivity|intros []]].
    destruct (PerformDownload_run n env (InMedia k [] false)); reflexivity.
  - destruct (IH env) as (acts & E & Rq & NI).
    exists (Admit :: Append data :: acts).
    replace (2 * length (data :: rest))%nat
      with (S (S (2 * length rest))) by (simpl; lia).
    cbn [repeat app PerformDownload_run].
    destruct k; do 2 (simpl PerformDownload; cbn iota); rewrite E;
      (split; [reflexivity|]); (split; [exact Rq|]);
      intros [X|[X|X]]; try discriminate; contradiction.
Qed.

(** Left alone ([stop] never set, room whenever it writes) the thread runs
    to its end and has then asked for exactly its plan. *)
Lemma PerformDownload_run_completes (n : Z) :
  forall K s, windows s n = K ->
    exists env acts,
      Forall (fun e => e = (false, true)) env /\
      PerformDownload_run n env (AtWhile s) = (Dead, acts) /\
      requests acts = plan s n /\ ~ In StopAck acts.
Proof.
  pose proof chunk_size_pos as HR.
  induction K as [|K IH]; intros s W.
  - (* no window left: the open-ended fetch *)
    assert (L : (s + DAISY_CHAIN_CHUNK_SIZE <? n) = false).
    { destruct (Z.ltb_spec (s + DAISY_CHAIN_CHUNK_SIZE) n) as [H|H]; [|reflexivity].
      destruct (windows_remaining s n) as [_ B]. rewrite W in B. simpl in B. lia. }
    destruct (PerformDownload_run_writes n OpenEnded false
                (GetObjectMedia s None) [(false, true)]) as (acts & E & Rq & NI).
    exists ((false, true)
            :: repeat (false, true) (2 * length (GetObjectMedia s None))
            ++ [(false, true)]),
           (Fetch s None :: acts ++ [Finish]).
    split; [|split; [|split]].
    + constructor; [reflexivity|]. apply Forall_app. split.
      * apply Forall_forall. intros x Hx. now apply repeat_spec in Hx.
      * constructor; [reflexivity|constructor].
    + cbn [PerformDownload_run PerformDownload]. rewrite L, E. reflexivity.
    + rewrite plan_unfold, L. simpl. rewrite requests_app, Rq. reflexivity.
    + intros [X|X]; [discriminate|]. apply in_app_or in X.
      destruct X as [X|[X|[]]]; [contradiction|discriminate].
  - (* one more window, then the rest of the plan *)
    assert (L : (s + DAISY_CHAIN_CHUNK_SIZE <? n) = true).
    { destruct (Z.ltb_spec (s + DAISY_CHAIN_CHUNK_SIZE) n) as [H|H]; [reflexivity|].
      destruct (windows_remaining s n) as [A _].
      specialize (A O). rewrite W in A. specialize (A ltac:(lia)). simpl in A. lia. }
    assert (W' : windows (s + DAISY_CHAIN_CHUNK_SIZE) n = K).
    { pose proof (plan_unfold s n) as P. rewrite L in P.
      apply (f_equal (@length _)) in P. unfold plan in P.
      rewrite !length_app, !length_map, !length_seq in P. simpl in P.
      rewrite !length_app, !length_map, !length_seq in P. simpl in P. lia. }
    destruct (IH _ W') as (env' & acts' & F' & R' & Rq' & NI').
    set (e := Some (s + DAISY_CHAIN_CHUNK_SIZE - 1)).
    destruct (PerformDownload_run_writes n (Ranged s) false
                (GetObjectMedia s e) ((false, true) :: env'))
      as (acts & E & Rq & NI).
    exists ((false, true)
            :: repeat (false, true) (2 * length (GetObjectMedia s e))
            ++ (false, true) :: env'),
           (Fetch s e :: acts ++ NextWindow :: acts').
    split; [|split; [|split]].
    + constructor; [reflexivity|]. apply Forall_app. split.
      * apply Forall_forall. intros x Hx. now apply repeat_spec in Hx.
      * constructor; [reflexivity|exact F'].
    + cbn [PerformDownload_run PerformDownload]. rewrite L. fold e. rewrite E.
      cbn [PerformDownload_run PerformDownload]. rewrite R'. reflexivity.
    + rewrite plan_unfold, L. simpl. rewrite requests_app, Rq. simpl.
      now rewrite Rq'.
    + intros [X|X]; [discriminate|]. apply in_app_or in X.
      destruct X as [X|[X|X]]; [contradiction|discriminate|contradiction].
Qed.

(** *** The stop test on a run *)

Lemma PerformDownload_run_dead (n : Z) (env : list (bool * bool)) :
  PerformDownload_run n env Dead = (Dead, []).
Proof.
  destruct env as [|[stop room] env]; reflexivity.
Qed.

(** A run that has not ended with the thread's exit goes on with what the
    environment shows next. *)
Lemma PerformDownload_run_app (n : Z) (env2 : list (bool * bool)) :
  forall env1 t0 t1 acts1,
    PerformDownload_run n env1 t0 = (t1, acts1) ->
    t1 <> Dead ->
    PerformDownload_run n (env1 ++ env2) t0
    = (fst (PerformDownload_run n env2 t1),
       acts1 ++ snd (PerformDownload_run n env2 t1)).
Proof.
  induction env1 as [|[stop room] env1 IH]; intros t0 t1 acts1 R ND.
  - simpl in R. inversion R; subst. simpl.
    destruct (PerformDownload_run n env2 t1); reflexivity.
  - simpl in R. cbn [app PerformDownload_run].
    destruct (PerformDownload n stop room t0) as [[t' a]|] eqn:E.
    + destruct (PerformDownload_run n env1 t') as [t'' acts'] eqn:R1.
      inversion R; subst; clear R.
      rewrite (IH _ _ _ R1 ND). reflexivity.
    + inversion R; subst. destruct t1 as [sb|k pending adm|].
      * simpl in E. destruct (sb + DAISY_CHAIN_CHUNK_SIZE <? n); discriminate E.
      * destruct k, pending, adm, stop, room; discriminate E.
      * contradiction ND. reflexivity.
Qed.

(** What the thread does in a ranged fetch: writes, and then the test of
    line 137 with what the environment shows at that moment. *)
Lemma ranged_fetch_then_test (n : Z) (env : list (bool * bool)) :
  forall sb pending adm t acts,
    PerformDownload_run n env (InMedia (Ranged sb) pending adm) = (t, acts) ->
    exists writes rest,
      seen env acts = writes ++ rest /\
      Forall (fun p => writing (snd p)) writes /\
      ((rest = [] /\
        exists pending' adm', t = InMedia (Ranged sb) pending' adm') \/
       (exists room, rest = [((true, room), StopAck)] /\ t = Dead) \/
       (exists room rest', rest = ((false, room), NextWindow) :: rest')).
Proof.
  unfold seen.
  induction env as [|[stop room] env IH]; intros sb pending adm t acts R.
  - simpl in R. inversion R; subst. exists [], []. simpl.
    split; [reflexivity|]. split; [constructor|]. left. eauto.
  - cbn [PerformDownload_run] in R.
    assert (W : forall t1 a, writing a ->
              (let (t'', acts') := PerformDownload_run n env t1 in
               (t'', a :: acts')) = (t, acts) ->
              (exists pending1 adm1, t1 = InMedia (Ranged sb) pending1 adm1) ->
              exists writes rest,
                combine ((stop, room) :: env) acts = writes ++ rest /\
                Forall (fun p => writing (snd p)) writes /\
                ((rest = [] /\
                  exists pending' adm', t = InMedia (Ranged sb) pending' adm') \/
                 (exists room, rest = [((true, room), StopAck)] /\ t = Dead) \/
                 (exists room rest', rest = ((false, room), NextWindow) :: rest'))).
    { intros t1 a Wa H (pending1 & adm1 & ->).
      destruct (PerformDownload_run n env (InMedia (Ranged sb) pending1 adm1))
        as [t'' acts'] eqn:R1.
      inversion H; subst; clear H.
      destruct (IH _ _ _ _ _ R1) as (writes & rest & E & F & D).
      exists (((stop, room), a) :: writes), rest. simpl. rewrite E.
      split; [reflexivity|]. split; [constructor; assumption|exact D]. }
    destruct pending as [|data more].
    + (* the fetch has returned: the test *)
      assert (E : PerformDownload n stop room (InMedia (Ranged sb) [] adm)
                  = if stop then Some (Dead, StopAck)
                    else Some (AtWhile (sb + DAISY_CHAIN_CHUNK_SIZE), NextWindow))
        by (destruct adm; reflexivity).
      rewrite E in R. destruct stop.
      * rewrite PerformDownload_run_dead in R. inversion R; subst.
        exists [], [((true, room), StopAck)]. simpl.
        split; [destruct env; reflexivity|]. split; [constructor|].
        right; left. eauto.
      * destruct (PerformDownload_run n env
                    (AtWhile (sb + DAISY_CHAIN_CHUNK_SIZE))) as [t'' acts'].
        inversion R; subst.
        exists [], (((false, room), NextWindow) :: combine env acts'). simpl.
        split; [reflexivity|]. split; [constructor|].
        right; right. eauto.
    + destruct adm.
      * simpl PerformDownload in R. cbv iota in R.
        eapply W; [|exact R|]; [exact I|eauto].
      * simpl PerformDownload in R. cbv iota in R. destruct room.
        -- eapply W; [|exact R|]; [exact I|eauto].
        -- eapply W; [|exact R|]; [exact I|eauto].
Qed.

Lemma fetch_then_test (n : Z) (env : list (bool * bool)) :
  forall t0 t acts before x sb e after,
    PerformDownload_run n env t0 = (t, acts) ->
    seen env acts = before ++ (x, Fetch sb (Some e)) :: after ->
    exists writes rest,
      after = writes ++ rest /\
      Forall (fun p => writing (snd p)) writes /\
      ((rest = [] /\
        exists pending adm, t = InMedia (Ranged sb) pending adm) \/
       (exists room, rest = [((true, room), StopAck)] /\ t = Dead) \/
       (exists room rest', rest = ((false, room), NextWindow) :: rest')).
Proof.
  unfold seen.
  induction env as [|[stop room] env IH];
    intros t0 t acts before x sb e after R C.
  - simpl in C. destruct before; discriminate C.
  - cbn [PerformDownload_run] in R.
    destruct (PerformDownload n stop room t0) as [[t1 a]|] eqn:E.
    + destruct (PerformDownload_run n env t1) as [t'' acts'] eqn:R1.
      inversion R; subst; clear R. simpl in C.
      destruct before as [|p before].
      * simpl in C. inversion C; subst; clear C.
        assert (T1 : exists pending, t1 = InMedia (Ranged sb) pending false).
        { destruct t0 as [s0|k pending adm|]; [| |discriminate E].
          - simpl in E. destruct (s0 + DAISY_CHAIN_CHUNK_SIZE <? n);
              inversion E; subst. eauto.
          - destruct k, pending, adm, stop, room; simpl in E; discriminate E. }
        destruct T1 as (pending & ->).
        apply (ranged_fetch_then_test _ _ _ _ _ _ _ R1).
      * simpl in C. inversion C; subst; clear C.
        apply (IH _ _ _ _ _ _ _ _ R1 H1).
    + inversion R; subst. simpl in C. destruct before; discriminate C.
Qed.

(** With the stop event set whenever it looks, a thread in a ranged fetch
    makes no further fetch. *)
Lemma stopped_in_ranged_fetch (n : Z) (env : list (bool * bool)) :
  forall sb pending adm t acts,
    Forall (fun x => fst x = true) env ->
    PerformDownload_run n env (InMedia (Ranged sb) pending adm) = (t, acts) ->
    requests acts = [] /\
    ((exists pending' adm', t = InMedia (Ranged sb) pending' adm') \/
     (t = Dead /\ exists before, acts = before ++ [StopAck])).
Proof.
  induction env as [|[stop room] env IH]; intros sb pending adm t acts F R.
  - simpl in R. inversion R; subst. split; [reflexivity|]. left. eauto.
  - apply Forall_cons_iff in F. destruct F as (Hs & F). simpl in Hs. subst stop.
    cbn [PerformDownload_run] in R.
    assert (W : forall t1 a, requests [a] = [] ->
              (let (t'', acts') := PerformDownload_run n env t1 in
               (t'', a :: acts')) = (t, acts) ->
              (exists pending1 adm1, t1 = InMedia (Ranged sb) pending1 adm1) ->
              requests acts = [] /\
              ((exists pending' adm', t = InMedia (Ranged sb) pending' adm') \/
               (t = Dead /\ exists before, acts = before ++ [StopAck]))).
    { intros t1 a Ra H (pending1 & adm1 & ->).
      destruct (PerformDownload_run n env (InMedia (Ranged sb) pending1 adm1))
        as [t'' acts'] eqn:R1.
      inversion H; subst; clear H.
      destruct (IH _ _ _ _ _ F R1) as (Rq & D).
      split.
      - change (a :: acts') with ([a] ++ acts').
        rewrite requests_app, Ra, Rq. reflexivity.
      - destruct D as [D|(Dd & before & ->)]; [left; exact D|].
        right. split; [exact Dd|]. exists (a :: before). reflexivity. }
    destruct pending as [|data more].
    + assert (E : PerformDownload n true room (InMedia (Ranged sb) [] adm)
                  = Some (Dead, StopAck)) by (destruct adm; reflexivity).
      rewrite E, PerformDownload_run_dead in R. inversion R; subst.
      split; [reflexivity|]. right. split; [reflexivity|]. exists []. reflexivity.
    + destruct adm.
      * simpl PerformDownload in R. cbv iota in R.
        eapply W; [|exact R|]; [reflexivity|eauto].
      * simpl PerformDownload in R. cbv iota in R. destruct room.
        -- eapply W; [|exact R|]; [reflexivity|eauto].
        -- eapply W; [|exact R|]; [reflexivity|eauto].
Qed.

(** C4.  A download started at [s] on an object of [n] bytes asks, in any
    environment, for a prefix of [plan s n]: the ranges
    [s + k*CHUNK .. s + (k+1)*CHUNK - 1] for as long as more than one range
    is left, then one fetch without an end.  After each ranged fetch it
    looks at the stop event: if set, it clears it and exits, and this is its
    last action; if not, it goes on with the next range.  Never stopped, a
    thread that has exited has asked for the whole plan, and left alone it
    does exit.  On every run, in any environment, a ranged fetch is followed
    by the writes of its pieces and then by that test, taken with what the
    stop event shows at that moment: set, the run ends there with the
    acknowledgement and no further fetch is made; clear, the thread goes to
    the next range.  With the stop event set all along and more than one
    range left, the thread makes the first ranged fetch and nothing else. *)
Theorem PerformDownload_fetches (s n : Z) :
  (* the closed form is the claim's *)
  ((forall k, (k < windows s n)%nat ->
      n - (s + Z.of_nat k * DAISY_CHAIN_CHUNK_SIZE) > DAISY_CHAIN_CHUNK_SIZE) /\
   n - (s + Z.of_nat (windows s n) * DAISY_CHAIN_CHUNK_SIZE)
     <= DAISY_CHAIN_CHUNK_SIZE) /\
  (* every run asks for a prefix of the plan *)
  (forall env t acts,
     PerformDownload_run n env (AtWhile s) = (t, acts) ->
     exists rest, plan s n = requests acts ++ rest) /\
  (* never stopped and exited: the whole plan *)
  (forall env acts,
     PerformDownload_run n env (AtWhile s) = (Dead, acts) ->
     ~ In StopAck acts -> requests acts = plan s n) /\
  (* a stop is acknowledged last *)
  (forall env t acts,
     PerformDownload_run n env (AtWhile s) = (t, acts) ->
     In StopAck acts ->
     t = Dead /\ exists before, acts = before ++ [StopAck]) /\
  (* the test of line 137 *)
  (forall sb adm room,
     PerformDownload n true room (InMedia (Ranged sb) [] adm)
       = Some (Dead, StopAck) /\
     PerformDownload n false room (InMedia (Ranged sb) [] adm)
       = Some (AtWhile (sb + DAISY_CHAIN_CHUNK_SIZE), NextWindow)) /\
  (forall w sb adm,
     download_thread w = InMedia (Ranged sb) [] adm ->
     stop_download w = true ->
     exists w', download_tick w = Some (w', StopAck) /\
                stop_download w' = false /\ download_thread w' = Dead) /\
  (* left alone, the thread exits *)
  (exists env acts,
     Forall (fun e => e = (false, true)) env /\
     PerformDownload_run n env (AtWhile s) = (Dead, acts) /\
     requests acts = plan s n) /\
  (* on every run a ranged fetch is followed by writes and then by the
     test, with what the stop event shows then: set, the acknowledgement
     ends the run; clear, the next range *)
  (forall env t acts before x sb e after,
     PerformDownload_run n env (AtWhile s) = (t, acts) ->
     seen env acts = before ++ (x, Fetch sb (Some e)) :: after ->
     exists writes rest,
       after = writes ++ rest /\
       Forall (fun p => writing (snd p)) writes /\
       ((rest = [] /\
         exists pending adm, t = InMedia (Ranged sb) pending adm) \/
        (exists room, rest = [((true, room), StopAck)] /\ t = Dead) \/
        (exists room rest', rest = ((false, room), NextWindow) :: rest'))) /\
  (* the stop event set when a ranged fetch has returned: nothing more is
     done, whatever the environment shows later; clear: on with the next
     range *)
  (forall env1 room env2 sb adm acts1,
     PerformDownload_run n env1 (AtWhile s)
       = (InMedia (Ranged sb) [] adm, acts1) ->
     PerformDownload_run n (env1 ++ (true, room) :: env2) (AtWhile s)
       = (Dead, acts1 ++ [StopAck]) /\
     requests (acts1 ++ [StopAck]) = requests acts1 /\
     PerformDownload_run n (env1 ++ (false, room) :: env2) (AtWhile s)
       = (fst (PerformDownload_run n env2
                 (AtWhile (sb + DAISY_CHAIN_CHUNK_SIZE))),
          acts1 ++ NextWindow
            :: snd (PerformDownload_run n env2
                      (AtWhile (sb + DAISY_CHAIN_CHUNK_SIZE))))) /\
  (* with room, a ranged fetch does return *)
  (forall env1 sb pending acts1 stop,
     PerformDownload_run n env1 (AtWhile s)
       = (InMedia (Ranged sb) pending false, acts1) ->
     exists acts2,
       PerformDownload_run n (env1 ++ repeat (stop, true) (2 * length pending))
                           (AtWhile s)
         = (InMedia (Ranged sb) [] false, acts1 ++ acts2) /\
       requests acts2 = []) /\
  (* the stop event set all along, more than one range left: the first
     range and nothing else *)
  (s + DAISY_CHAIN_CHUNK_SIZE < n ->
   (forall env t acts,
      Forall (fun x => fst x = true) env ->
      PerformDownload_run n env (AtWhile s) = (t, acts) ->
      (requests acts = [] \/
       requests acts = [(s, Some (s + DAISY_CHAIN_CHUNK_SIZE - 1))]) /\
      (forall pending adm, t <> InMedia OpenEnded pending adm) /\
      (t = Dead ->
       requests acts = [(s, Some (s + DAISY_CHAIN_CHUNK_SIZE - 1))] /\
       exists before, acts = before ++ [StopAck])) /\
   (exists env acts,
      Forall (fun x => x = (true, true)) env /\
      PerformDownload_run n env (AtWhile s) = (Dead, acts) /\
      requests acts = [(s, Some (s + DAISY_CHAIN_CHUNK_SIZE - 1))])).
Proof.
  split; [apply windows_remaining|].
  split; [|split; [|split; [|split; [|split; [|split; [|split; [|split;
    [|split]]]]]]]].
  - intros env t acts R.
    destruct (PerformDownload_run_prefix _ _ _ _ _ R)
      as [(_ & E)|(_ & before & rest & E1 & _ & E2)].
    + exists (ahead n t). simpl in E. now rewrite E.
    + exists rest. subst acts. simpl in E2.
      rewrite requests_app. simpl. now rewrite app_nil_r.
  - intros env acts R NI.
    destruct (PerformDownload_run_prefix _ _ _ _ _ R)
      as [(_ & E)|(_ & before & rest & E1 & _ & _)].
    + simpl in E. now rewrite app_nil_r in E.
    + exfalso. apply NI. subst acts. apply in_or_app. right. now left.
  - intros env t acts R I.
    destruct (PerformDownload_run_prefix _ _ _ _ _ R)
      as [(NI & _)|(Ed & before & rest & E1 & _ & _)]; [contradiction|].
    split; [exact Ed|]. now exists before.
  - intros sb adm room. split; reflexivity.
  - intros w sb adm Ht Hs. unfold download_tick. rewrite Ht, Hs. simpl.
    eexists. repeat split.
  - destruct (PerformDownload_run_completes n _ s eq_refl)
      as (env & acts & F & R & Rq & _).
    now exists env, acts.
  - intros env t acts before x sb e after R C.
    exact (fetch_then_test _ _ _ _ _ _ _ _ _ _ R C).
  - intros env1 room env2 sb adm acts1 R.
    assert (ND : InMedia (Ranged sb) [] adm <> Dead) by discriminate.
    split; [|split].
    + rewrite (PerformDownload_run_app n _ _ _ _ _ R ND).
      cbn [PerformDownload_run].
      replace (PerformDownload n true room (InMedia (Ranged sb) [] adm))
        with (Some (Dead, StopAck)) by (destruct adm; reflexivity).
      rewrite PerformDownload_run_dead. reflexivity.
    + rewrite requests_app. simpl. apply app_nil_r.
    + rewrite (PerformDownload_run_app n _ _ _ _ _ R ND).
      cbn [PerformDownload_run].
      replace (PerformDownload n false room (InMedia (Ranged sb) [] adm))
        with (Some (AtWhile (sb + DAISY_CHAIN_CHUNK_SIZE), NextWindow))
        by (destruct adm; reflexivity).
      destruct (PerformDownload_run n env2
                  (AtWhile (sb + DAISY_CHAIN_CHUNK_SIZE))); reflexivity.
  - intros env1 sb pending acts1 stop R.
    assert (ND : InMedia (Ranged sb) pending false <> Dead) by discriminate.
    destruct (PerformDownload_run_writes n (Ranged sb) stop pending [])
      as (acts2 & E & Rq & _).
    rewrite app_nil_r in E. cbn [PerformDownload_run fst snd] in E.
    rewrite app_nil_r in E.
    exists acts2. split; [|exact Rq].
    rewrite (PerformDownload_run_app n _ _ _ _ _ R ND), E. reflexivity.
  - intros Hn.
    assert (L : (s + DAISY_CHAIN_CHUNK_SIZE <? n) = true)
      by (apply Z.ltb_lt; exact Hn).
    split.
    + intros env t acts F R.
      destruct env as [|[stop room] env].
      * simpl in R. inversion R; subst.
        split; [left; reflexivity|]. split; [discriminate|discriminate].
      * apply Forall_cons_iff in F. destruct F as (_ & F).
        cbn [PerformDownload_run PerformDownload] in R. rewrite L in R.
        destruct (PerformDownload_run n env
                    (InMedia (Ranged s)
                       (GetObjectMedia s (Some (s + DAISY_CHAIN_CHUNK_SIZE - 1)))
                       false)) as [t' acts'] eqn:R1.
        inversion R; subst; clear R.
        destruct (stopped_in_ranged_fetch _ _ _ _ _ _ _ F R1) as (Rq & D).
        simpl. rewrite Rq.
        split; [right; reflexivity|]. split.
        -- intros pending adm X.
           destruct D as [(p & a & D)|(D & _)]; rewrite D in X; discriminate X.
        -- intros Dd. split; [reflexivity|].
           destruct D as [(p & a & D)|(_ & before & ->)];
             [rewrite D in Dd; discriminate Dd|].
           exists (Fetch s (Some (s + DAISY_CHAIN_CHUNK_SIZE - 1)) :: before).
           reflexivity.
    + set (e := Some (s + DAISY_CHAIN_CHUNK_SIZE - 1)).
      destruct (PerformDownload_run_writes n (Ranged s) true
                  (GetObjectMedia s e) [(true, true)]) as (acts & E & Rq & _).
      exists ((true, true)
              :: repeat (true, true) (2 * length (GetObjectMedia s e))
              ++ [(true, true)]),
             (Fetch s e :: acts ++ [StopAck]).
      split; [|split].
      * constructor; [reflexivity|]. apply Forall_app. split.
        -- apply Forall_forall. intros x Hx. now apply repeat_spec in Hx.
        -- constructor; [reflexivity|constructor].
      * cbn [PerformDownload_run PerformDownload]. rewrite L. fold e.
        rewrite E. reflexivity.
      * simpl. rewrite requests_app, Rq. reflexivity.
Qed.

(** ** Schedules *)



(** *** [read] by cases *)

Lemma read_wait_cases (amt : Z) (w w' : bridge) (r : result chunk) :
  read_wait amt w = (w', r) ->
  (buffer w = [] /\ w' = w /\ r = Yield) \/
  (exists data rest,
      buffer w = data :: rest /\
      w' = locked w (position w + len data) rest
                  (bytes_buffered w - len data) (position w) (Some data) /\
      ((len data > amt /\ r = Raise BadRequestException) \/
       (len data <= amt /\ r = Return data))).
Proof.
  unfold read_wait. destruct (buffer w) as [|data rest].
  - intros H; inversion H; auto.
  - intros H. right. exists data, rest. split; [reflexivity|].
    destruct (Z.gtb_spec (len data) amt) as [G|G]; inversion H; subst;
      (split; [reflexivity|]); [left|right]; split; auto; lia.
Qed.

Lemma read_cases (amt : option Z) (w w' : bridge) (r : result chunk) :
  read amt w = (w', r) ->
  (w' = w /\ r = Return [] /\ (position w = src_obj_size w \/ amt = Some 0)) \/
  (w' = w /\ r = Raise BadRequestException /\
   position w <> src_obj_size w /\
   (amt = None \/ exists a, amt = Some a /\ a <> 0 /\ a > TRANSFER_BUFFER_SIZE)) \/
  (exists a, amt = Some a /\ read_entry a w /\ read_wait a w = (w', r)).
Proof.
  unfold read, read_entry.
  destruct (Z.eqb_spec (position w) (src_obj_size w)) as [E|N]; simpl.
  - intros H; inversion H; subst. left. auto.
  - destruct amt as [a|].
    + destruct (Z.eqb_spec a 0) as [E0|N0].
      * intros H; inversion H; subst. left. auto.
      * destruct (Z.gtb_spec a TRANSFER_BUFFER_SIZE) as [G|G].
        -- intros H; inversion H; subst. right; left. repeat split; auto.
           right. exists a. repeat split; auto; lia.
        -- intros H. right; right. exists a. repeat split; auto; lia.
    + intros H; inversion H; subst. right; left. auto.
Qed.


Lemma read_resumed (amt : Z) (w : bridge) :
  read_entry amt w -> read (Some amt) w = read_wait amt w.
Proof.
  intros (A & B & C). unfold read.
  destruct (Z.eqb_spec (position w) (src_obj_size w)); [contradiction|].
  destruct (Z.eqb_spec amt 0); [contradiction|]. simpl.
  destruct (Z.gtb_spec amt TRANSFER_BUFFER_SIZE); [lia|reflexivity].
Qed.




(** ** [last_data] along a schedule *)

(** What one step can do to [last_data]: clear it (a completed seek to the
    end or restart), leave it alone, or set it to the chunk a read pops. *)
Lemma last_data_step (e : event) (st st' : system) (o : outcome) :
  step e st = Some (st', o) ->
  (clears e o /\ last_data (wrapper st') = None) \/
  (~ clears e o /\ last_data (wrapper st') = last_data (wrapper st)) \/
  (~ clears e o /\ (e = Resume \/ exists amt, e = Call_read amt) /\
   exists c, last_data (wrapper st') = Some c /\
             buffer (wrapper st) = c :: buffer (wrapper st') /\
             (o = Returned (Bytes c) \/ o = Raised BadRequestException)).
Proof.
  destruct st as [w c].
  assert (RW : forall amt e', (e' = Resume \/ exists a, e' = Call_read a) ->
            ~ clears e' o ->
            answer Bytes (Reading amt) (read_wait amt w) = Some (st', o) ->
            (~ clears e' o /\ last_data (wrapper st') = last_data w) \/
            (~ clears e' o /\ (e' = Resume \/ exists a, e' = Call_read a) /\
             exists c, last_data (wrapper st') = Some c /\
                       buffer w = c :: buffer (wrapper st') /\
                       (o = Returned (Bytes c) \/ o = Raised BadRequestException))).
  { intros amt e' He' NC A. destruct (read_wait amt w) as [w1 r] eqn:RW.
    destruct (read_wait_cases _ _ _ _ RW)
      as [(_ & -> & ->)|(d & rest & B & -> & [(_ & ->)|(L & ->)])];
      simpl in A; inversion A; subst; simpl.
    - left. auto.
    - right. split; [exact NC|]. split; [exact He'|]. exists d. auto.
    - right. split; [exact NC|]. split; [exact He'|]. exists d. auto. }
  destruct e; simpl.
  - (* Download *)
    destruct (download_tick w) as [[w1 a]|] eqn:D; [|discriminate].
    intros H; inversion H; subst; clear H. right; left. simpl.
    split; [intros []|]. apply (download_tick_frame _ _ _ D).
  - (* Call_read *)
    destruct c; try discriminate.
    destruct (read amt w) as [w1 r] eqn:RD. intros A.
    destruct (read_cases _ _ _ _ RD)
      as [(-> & -> & _)|[(-> & -> & _)|(a & Ea & En & RWa)]].
    + simpl in A; inversion A; subst. right; left. simpl. split; [intros []|reflexivity].
    + simpl in A; inversion A; subst. right; left. simpl. split; [intros []|reflexivity].
    + subst amt. rewrite <- RWa in A. right.
      apply (RW a (Call_read (Some a))); [right; eauto| |exact A].
      destruct o; simpl; auto.
  - (* Call_tell *)
    destruct c; try discriminate. simpl.
    intros H; inversion H; subst. right; left. simpl. split; [intros []|reflexivity].
  - (* Call_seek *)
    destruct c; try discriminate. unfold seek.
    destruct (Z.eqb_spec whence SEEK_END) as [WE|WE].
    + destruct (offset =? 0); simpl; intros H; inversion H; subst; simpl.
      * left. auto.
      * right; left. auto.
    + destruct (Z.eqb_spec whence SEEK_SET) as [WS|WS].
      * destruct (offset =? position w);
          [|destruct (offset =? last_position w);
            [destruct (last_data w) as [[|b d]|]|]];
          simpl; intros H; inversion H; subst; simpl;
          right; left; (split; [|reflexivity]); intros X; try exact X;
          apply WE; exact X.
      * simpl. intros H; inversion H; subst. right; left. simpl. auto.
  - (* Resume *)
    destruct c; try discriminate.
    + intros A. right. apply (RW amt Resume); [left; reflexivity| |exact A].
      destruct (read_wait amt w) as [w1 r] eqn:RWa.
      destruct (read_wait_cases _ _ _ _ RWa)
        as [(_ & -> & ->)|(d & rest & B & -> & [(_ & ->)|(L & ->)])];
        simpl in A; inversion A; subst; simpl; auto.
    + destruct (is_alive (download_thread w)); intros H; inversion H; subst; simpl.
      * right; left. auto.
      * left. auto.
    + unfold seek_drain.
      destruct (drain (buffer w) (bytes_buffered w)) as [[buf bb] ok].
      destruct ok; simpl; intros H; inversion H; subst; simpl;
        right; left; auto.
Qed.

Lemma last_data_history_from (evs : list event) :
  forall st st' os c,
    run evs st = Some (st', os) ->
    last_data (wrapper st') = Some c ->
    (last_data (wrapper st) = Some c /\ none_clears evs os) \/
    (exists evs1 e evs2 st1 st2 o os1 os2,
        evs = evs1 ++ e :: evs2 /\ os = os1 ++ o :: os2 /\
        run evs1 st = Some (st1, os1) /\
        popped_by e st1 st2 o c /\
        run evs2 st2 = Some (st', os2) /\
        none_clears evs2 os2).
Proof.
  induction evs as [|e evs IH]; intros st st' os c R L.
  - simpl in R. inversion R; subst. left. split; [exact L|constructor].
  - simpl in R.
    destruct (step e st) as [[st1 o1]|] eqn:S; [|discriminate].
    destruct (run evs st1) as [[st2 os2]|] eqn:R1; [|discriminate].
    inversion R; subst; clear R.
    destruct (IH _ _ _ _ R1 L)
      as [(L1 & NC)|(evs1 & e' & evs2 & sa & sb & o & os1 & os3
                     & -> & -> & Ra & P & Rb & NC)].
    + destruct (last_data_step _ _ _ _ S)
        as [(_ & N)|[(NCe & E)|(NCe & He & c' & Lc & B & Ho)]].
      * congruence.
      * left. split; [congruence|]. constructor; [exact NCe|exact NC].
      * right. exists [], e, evs, st, st1, o1, [], os2.
        assert (c' = c) by congruence. subst c'.
        repeat split; auto.
    + right. exists (e :: evs1), e', evs2, sa, sb, o, (o1 :: os1), os3.
      repeat split; try apply P; auto.
      simpl. rewrite S, Ra. reflexivity.
Qed.

(** C7 (as the code has it).  In every state reached from a fresh wrapper,
    [last_data] holds a chunk only if some read popped that chunk and no
    seek to the end and no restart has been completed since; what else
    happened since (actions of the download thread, [tell], reads that
    popped nothing, seeks to the current position, seeks back to
    [last_position]) is no matter.  A completed seek to the end and a
    completed restart leave [last_data] empty; a seek with [os.SEEK_SET]
    that returns at once (to the current position, or back to
    [last_position]) leaves it as it was.  So does every step that is
    neither the completion of a seek to the end or of a restart nor a read
    that pops a chunk: in particular each action of the download thread,
    [tell], and a read that pops nothing (one that returns the empty
    string or raises at once, or a turn of its wait loop). *)
Theorem last_data_history :
  (forall size evs st' os c,
     run evs (start size) = Some (st', os) ->
     last_data (wrapper st') = Some c ->
     exists evs1 e evs2 st1 st2 o os1 os2,
       evs = evs1 ++ e :: evs2 /\ os = os1 ++ o :: os2 /\
       run evs1 (start size) = Some (st1, os1) /\
       popped_by e st1 st2 o c /\
       run evs2 st2 = Some (st', os2) /\
       none_clears evs2 os2) /\
  (forall e st st' o,
     step e st = Some (st', o) -> clears e o ->
     last_data (wrapper st') = None) /\
  (forall offset st st',
     step (Call_seek offset SEEK_SET) st = Some (st', Returned NoneV) ->
     last_data (wrapper st') = last_data (wrapper st)) /\
  (* a read that pops a chunk leaves that chunk *)
  (forall e st st' o c,
     popped_by e st st' o c -> last_data (wrapper st') = Some c) /\
  (* every other step leaves it as it was *)
  (forall e st st' o,
     step e st = Some (st', o) ->
     ~ clears e o ->
     (forall c, ~ popped_by e st st' o c) ->
     last_data (wrapper st') = last_data (wrapper st)) /\
  (* the download thread *)
  (forall st st' o,
     step Download st = Some (st', o) ->
     last_data (wrapper st') = last_data (wrapper st)) /\
  (* [tell] *)
  (forall st st' o,
     step Call_tell st = Some (st', o) ->
     last_data (wrapper st') = last_data (wrapper st)) /\
  (* a read, called or resumed, that pops nothing *)
  (forall e st st' o,
     step e st = Some (st', o) ->
     (exists amt, e = Call_read amt) \/
     (e = Resume /\ exists amt, caller st = Reading amt) ->
     buffer (wrapper st') = buffer (wrapper st) ->
     last_data (wrapper st') = last_data (wrapper st)).
Proof.
  assert (NP : forall (c : chunk) (l : list chunk), l <> c :: l).
  { intros c l X. apply (f_equal (@length _)) in X. simpl in X. lia. }
  assert (Other : forall e st st' o,
            step e st = Some (st', o) ->
            ~ clears e o ->
            (forall c, ~ popped_by e st st' o c) ->
            last_data (wrapper st') = last_data (wrapper st)).
  { intros e st st' o Stp NC NPop.
    destruct (last_data_step _ _ _ _ Stp)
      as [(C & _)|[(_ & E)|(_ & He & c & _ & B & Ho)]].
    - contradiction.
    - exact E.
    - exfalso. apply (NPop c). unfold popped_by. auto. }
  split; [|split; [|split; [|split; [|split; [|split; [|split]]]]]].
  - intros size evs st' os c R L.
    destruct (last_data_history_from _ _ _ _ _ R L) as [(L0 & _)|H].
    + simpl in L0. discriminate.
    + exact H.
  - intros e st st' o Stp C.
    destruct (last_data_step _ _ _ _ Stp) as [(_ & N)|[(NC & _)|(NC & _)]];
      [exact N|contradiction|contradiction].
  - intros offset st st' Stp.
    destruct (last_data_step _ _ _ _ Stp)
      as [(C & _)|[(_ & E)|(_ & [He|(a & He)] & _)]].
    + simpl in C. discriminate.
    + exact E.
    + discriminate.
    + discriminate.
  - intros e st st' o c (Stp & He & B & Ho).
    destruct st as [w k]. simpl in B.
    assert (RW : forall amt,
              answer Bytes (Reading amt) (read_wait amt w) = Some (st', o) ->
              last_data (wrapper st') = Some c).
    { intros amt A. destruct (read_wait amt w) as [w1 r] eqn:RWa.
      destruct (read_wait_cases _ _ _ _ RWa)
        as [(_ & -> & ->)|(d & rest & Bw & -> & [(_ & ->)|(_ & ->)])];
        simpl in A; inversion A; subst; simpl in *.
      - destruct Ho; discriminate.
      - rewrite Bw in B. inversion B; subst. reflexivity.
      - rewrite Bw in B. inversion B; subst. reflexivity. }
    destruct He as [->|(amt & ->)]; simpl in Stp.
    + destruct k; try discriminate Stp.
      * exact (RW _ Stp).
      * destruct (is_alive (download_thread w));
          inversion Stp; subst; destruct Ho; discriminate.
      * unfold seek_drain in Stp.
        destruct (drain (buffer w) (bytes_buffered w)) as [[buf bb] ok].
        destruct ok; inversion Stp; subst; simpl in *;
          destruct Ho; discriminate.
    + destruct k; try discriminate Stp.
      destruct (read amt w) as [w1 r] eqn:RD.
      destruct (read_cases _ _ _ _ RD)
        as [(-> & -> & _)|[(-> & -> & _)|(a & Ea & En & RWa)]].
      * simpl in Stp; inversion Stp; subst. simpl in B.
        exfalso. apply (NP c (buffer w)). exact B.
      * simpl in Stp; inversion Stp; subst. simpl in B.
        exfalso. apply (NP c (buffer w)). exact B.
      * subst amt. rewrite <- RWa in Stp. exact (RW _ Stp).
  - exact Other.
  - intros st st' o Stp. apply (Other _ _ _ _ Stp).
    + intros C. exact C.
    + intros c (_ & [He|(a & He)] & _); discriminate He.
  - intros st st' o Stp. apply (Other _ _ _ _ Stp).
    + intros C. exact C.
    + intros c (_ & [He|(a & He)] & _); discriminate He.
  - intros e st st' o Stp He B.
    destruct (last_data_step _ _ _ _ Stp)
      as [(C & _)|[(_ & E)|(_ & _ & c & _ & B' & _)]].
    + exfalso. destruct He as [(amt & ->)|(-> & amt & Hc)]; [exact C|].
      destruct st as [w k]. simpl in Hc. subst k. simpl in Stp.
      destruct (read_wait amt w) as [w1 r].
      destruct r; simpl in Stp; inversion Stp; subst; exact C.
    + exact E.
    + exfalso. rewrite B' in B. apply (NP c (buffer (wrapper st'))).
      exact B.
Qed.

(** ** The byte counter along a schedule *)

Lemma replayable_bounds (L : Z) (w : bridge) :
  0 <= L ->
  (forall c, last_data w = Some c -> len c <= L) ->
  0 <= replayable w <= L.
Proof.
  intros HL H. unfold replayable.
  destruct (position w =? last_position w); [lia|].
  destruct (last_data w) as [c|]; [|lia].
  pose proof (len_nonneg c). specialize (H c eq_refl). lia.
Qed.

Lemma drain_spec (buf : list chunk) : forall bb buf' bb' ok,
  drain buf bb = (buf', bb', ok) ->
  exists gone, buf = gone ++ buf' /\ bb' = bb - total gone /\
               (ok = true -> bb' = 0).
Proof.
  induction buf as [|d rest IH]; intros bb buf' bb' ok; simpl.
  - destruct (Z.eqb_spec bb 0); intros H; inversion H; subst;
      exists []; simpl; repeat split; try lia; discriminate.
  - destruct (Z.eqb_spec bb 0).
    + intros H; inversion H; subst. exists []. simpl. repeat split; lia.
    + intros H. destruct (IH _ _ _ _ H) as (gone & E & B & K).
      exists (d :: gone). simpl. rewrite E. repeat split; auto. lia.
Qed.

Lemma bounded_download (L : Z) (w w' : bridge) (c : consumer) (a : action) :
  0 <= L -> pieces_within L GetObjectMedia ->
  download_tick w = Some (w', a) ->
  bounded L (System w c) -> bounded L (System w' c).
Proof.
  intros HL PW D Bd.
  pose proof (replayable_bounds L w HL (proj1 (proj2 (proj2 (proj2 Bd))))) as RB.
  destruct w as [pos buf bb mx lp ld sz th stop].
  unfold bounded, download_tick, replayable in *. simpl in *.
  destruct Bd as (M & B & AB & LD & TP).
  destruct th as [sb|k pending adm|]; simpl in D, B.
  - destruct (sb + DAISY_CHAIN_CHUNK_SIZE <? sz);
      inversion D; subst; clear D; simpl;
      (split; [exact M|]); (split; [lia|]); (split; [exact AB|]);
      (split; [exact LD|]);
      apply Forall_forall; intros d Hd; eapply PW; exact Hd.
  - destruct pending as [|d rest].
    + destruct k as [sb|]; [destruct stop|];
        destruct adm; inversion D; subst; clear D; simpl;
        (split; [exact M|]); (split; [lia|]); (split; [exact AB|]);
        (split; [exact LD|]); exact I.
    + inversion TP as [|? ? Hd Hrest]; subst.
      pose proof (len_nonneg d).
      destruct adm; [|destruct (Z.ltb_spec bb mx)];
        destruct k; inversion D; subst; clear D; simpl in *;
        (split; [exact M|]); (split; [destruct rest; lia|]);
        (split; [first [exact AB|apply Forall_app; split;
                                  [exact AB|constructor; [exact Hd|constructor]]]|]);
        (split; [exact LD|]); assumption.
  - discriminate.
Qed.

Lemma answer_wrapper {A : Type} (inj : A -> value) (p : consumer)
    (w : bridge) (r : result A) (st' : system) (o : outcome) :
  answer inj p (w, r) = Some (st', o) -> wrapper st' = w.
Proof. destruct r; simpl; intros H; inversion H; reflexivity. Qed.

Lemma bounded_read_wait (L amt : Z) (w w' : bridge) (r : result chunk)
    (c : consumer) :
  0 <= L ->
  read_wait amt w = (w', r) ->
  bounded L (System w c) -> bounded L (System w' c).
Proof.
  intros HL RW Bd.
  pose proof (replayable_bounds L w HL (proj1 (proj2 (proj2 (proj2 Bd))))) as RB.
  destruct (read_wait_cases _ _ _ _ RW)
    as [(_ & -> & _)|(d & rest & B & -> & _)]; [exact Bd|].
  destruct Bd as (M & Bb & AB & LD & TP). simpl in *.
  rewrite B in AB. inversion AB as [|? ? Hd Hrest]; subst.
  pose proof (len_nonneg d).
  unfold bounded, replayable. simpl.
  split; [exact M|]. split.
  - destruct (position w + len d =? position w); lia.
  - split; [exact Hrest|]. split; [|exact TP].
    intros c0 E. inversion E; subst. exact Hd.
Qed.

Lemma bounded_seek (L offset whence : Z) (w w' : bridge) (r : result unit)
    (c : consumer) :
  0 <= L ->
  seek offset whence w = (w', r) ->
  bounded L (System w c) -> bounded L (System w' c).
Proof.
  intros HL SK Bd.
  pose proof (replayable_bounds L w HL (proj1 (proj2 (proj2 (proj2 Bd))))) as RB.
  destruct Bd as (M & Bb & AB & LD & TP). simpl in *.
  unfold seek in SK. unfold bounded, replayable in *.
  destruct (whence =? SEEK_END).
  - destruct (offset =? 0); simpl in SK; inversion SK; subst; clear SK; simpl.
    + split; [exact M|]. split.
      * destruct (src_obj_size w =? position w); lia.
      * split; [exact AB|]. split; [discriminate|exact TP].
    + auto.
  - destruct (whence =? SEEK_SET); [|inversion SK; subst; auto].
    destruct (Z.eqb_spec offset (position w)); [inversion SK; subst; auto|].
    destruct (Z.eqb_spec offset (last_position w)) as [E|E].
    + assert (PL : (position w =? last_position w) = false)
        by (apply Z.eqb_neq; lia).
      rewrite PL in *.
      destruct (last_data w) as [[|b d]|] eqn:LDw;
        inversion SK; subst; clear SK; simpl; rewrite Z.eqb_refl;
        (split; [exact M|]); (split; [lia|]);
        (split; [|split; [exact LD|exact TP]]); auto.
      constructor; [apply LD; reflexivity|exact AB].
    + inversion SK; subst; clear SK; simpl. auto.
Qed.

Lemma bounded_seek_drain (L : Z) (w w' : bridge) (r : result unit)
    (c : consumer) :
  seek_drain w = (w', r) ->
  bounded L (System w c) -> bounded L (System w' c).
Proof.
  intros SD (M & Bb & AB & LD & TP). simpl in *. unfold seek_drain in SD.
  destruct (drain (buffer w) (bytes_buffered w)) as [[buf bb] ok] eqn:D.
  destruct (drain_spec _ _ _ _ _ D) as (gone & E & Ebb & _).
  pose proof (total_nonneg gone).
  assert (W : w' = locked w (position w) buf bb (last_position w) (last_data w))
    by (destruct ok; inversion SD; reflexivity).
  subst w'. unfold bounded, replayable in *. simpl.
  split; [exact M|]. split; [lia|]. split; [|split; [exact LD|exact TP]].
  rewrite E in AB. apply Forall_app in AB. apply AB.
Qed.

Lemma bounded_seek_restart (L offset : Z) (w : bridge) (c : consumer) :
  0 <= L ->
  bounded L (System w c) -> bounded L (System (seek_restart offset w) c).
Proof.
  intros HL (M & _). unfold bounded, replayable. simpl in *.
  split; [exact M|]. split; [destruct (offset =? 0); lia|].
  split; [constructor|]. split; [discriminate|exact I].
Qed.

(** Every step keeps the bound. *)
Lemma bounded_step (L : Z) (e : event) (st st' : system) (o : outcome) :
  0 <= L -> pieces_within L GetObjectMedia ->
  step e st = Some (st', o) ->
  bounded L st -> bounded L st'.
Proof.
  intros HL PW S Bd. destruct st as [w c]. destruct st' as [w' c'].
  destruct e; simpl in S.
  - destruct (download_tick w) as [[w1 a]|] eqn:D; inversion S; subst.
    eapply bounded_download; eassumption.
  - destruct c; try discriminate.
    destruct (read amt w) as [w1 r] eqn:RD.
    apply answer_wrapper in S. simpl in S. subst w1.
    destruct (read_cases _ _ _ _ RD)
      as [(-> & _)|[(-> & _)|(a & _ & _ & RW)]]; try exact Bd.
    eapply bounded_read_wait; eassumption.
  - destruct c; try discriminate. inversion S; subst. exact Bd.
  - destruct c; try discriminate.
    destruct (seek offset whence w) as [w1 r] eqn:SK.
    apply answer_wrapper in S. simpl in S. subst w1.
    eapply bounded_seek; eassumption.
  - destruct c; try discriminate.
    + destruct (read_wait amt w) as [w1 r] eqn:RW.
      apply answer_wrapper in S. simpl in S. subst w1.
      eapply bounded_read_wait; eassumption.
    + destruct (is_alive (download_thread w)); inversion S; subst.
      * exact Bd.
      * apply bounded_seek_restart; assumption.
    + destruct (seek_drain w) as [w1 r] eqn:SD.
      apply answer_wrapper in S. simpl in S. subst w1.
      eapply bounded_seek_drain; eassumption.
Qed.

Lemma run_invariant (P : system -> Prop) :
  (forall e st st' o, step e st = Some (st', o) -> P st -> P st') ->
  forall evs st st' os, run evs st = Some (st', os) -> P st -> P st'.
Proof.
  intros Hstep. induction evs as [|e evs IH]; simpl; intros st st' os R H.
  - inversion R; subst. exact H.
  - destruct (step e st) as [[st1 o]|] eqn:S; [|discriminate].
    destruct (run evs st1) as [[st2 os2]|] eqn:R1; [|discriminate].
    inversion R; subst. eapply IH; [exact R1|]. eapply Hstep; eassumption.
Qed.

(** C5 (as the code has it).  In every state reached from a fresh wrapper
    by any interleaving of the download thread with [read], [tell] and
    [seek], with no piece of the fetch client longer than [L], the byte
    counter is at most [max_buffer_size - 1 + 2 * L]: below capacity when a
    write is let in, plus the chunk of that write, plus the chunk that a
    seek back to [last_position] puts back on the deque. *)
Theorem bytes_buffered_bound (L size : Z) (evs : list event) (st : system)
    (os : list outcome) :
  0 <= L ->
  pieces_within L GetObjectMedia ->
  run evs (start size) = Some (st, os) ->
  bytes_buffered (wrapper st) <= max_buffer_size (wrapper st) - 1 + 2 * L.
Proof.
  intros HL PW R.
  assert (Bd : bounded L st).
  { apply (run_invariant (bounded L)) with (evs := evs) (st := start size) (os := os).
    - intros e s s' o S B. eapply bounded_step; eassumption.
    - exact R.
    - unfold bounded, replayable, start, init, StartDownloadThread, set_thread.
      cbn [wrapper position last_position last_data bytes_buffered
           max_buffer_size download_thread buffer in_flight].
      rewrite Z.eqb_refl.
      split; [lia|]. split; [lia|]. split; [constructor|].
      split; [discriminate|exact I]. }
  pose proof (replayable_bounds L (wrapper st) HL
                (proj1 (proj2 (proj2 (proj2 Bd))))) as RB.
  destruct Bd as (_ & B & _ & _ & TP).
  assert (0 <= in_flight (download_thread (wrapper st))).
  { destruct (download_thread (wrapper st)) as [|k [|d r] [|]|]; simpl; try lia.
    apply len_nonneg. }
  lia.
Qed.

(** ** The position along a schedule *)

Lemma todo_nonneg (n : Z) (t : thread) : thread_ok n t -> 0 <= todo n t.
Proof.
  destruct t as [sb|[sb|] pending adm|]; simpl; intros H;
    try pose proof (total_nonneg pending); lia.
Qed.

Lemma ld_len_nonneg (ld : option chunk) : 0 <= ld_len ld.
Proof. destruct ld as [c|]; simpl; [apply len_nonneg|lia]. Qed.

Lemma in_range_download (w w' : bridge) (a : action) :
  fetch_fits (src_obj_size w) ->
  download_tick w = Some (w', a) ->
  in_range w -> in_range w'.
Proof.
  intros (F1 & F2) D IR. pose proof chunk_size_pos as HR.
  destruct w as [pos buf bb mx lp ld sz th stop].
  unfold in_range, download_tick in *. cbn [position buffer bytes_buffered
    last_position last_data src_obj_size download_thread stop_download
    max_buffer_size] in *.
  destruct IR as (P & LP & BB & TO & RS & WS).
  destruct th as [sb|k pending adm|]; simpl in D; [| |discriminate].
  - simpl in TO, RS, WS.
    destruct (Z.ltb_spec (sb + DAISY_CHAIN_CHUNK_SIZE) sz) as [Lt|Ge];
      inversion D; subst; clear D; simpl.
    + specialize (F1 sb ltac:(lia)). repeat split; lia.
    + specialize (F2 sb ltac:(lia)). repeat split; lia.
  - destruct pending as [|d rest].
    + destruct k as [sb|]; [destruct stop|]; destruct adm;
        inversion D; subst; clear D; simpl in *;
        repeat split; lia.
    + pose proof (len_nonneg d). pose proof (total_nonneg rest).
      destruct adm; [|destruct (bb <? mx)];
        destruct k as [sb|]; inversion D; subst; clear D; simpl in *;
        try rewrite total_app; simpl;
        repeat split; lia.
Qed.

Ltac fields :=
  cbn [position buffer bytes_buffered max_buffer_size last_position last_data
       src_obj_size download_thread stop_download locked set_thread
       StartDownloadThread seek_restart total ld_len todo thread_ok
       wrapper caller] in *.

Lemma in_range_read_wait (amt : Z) (w w' : bridge) (r : result chunk) :
  position w <> src_obj_size w ->
  read_wait amt w = (w', r) ->
  in_range w -> in_range w'.
Proof.
  intros NE RW IR.
  destruct (read_wait_cases _ _ _ _ RW)
    as [(_ & -> & _)|(d & rest & B & -> & _)]; [exact IR|].
  destruct IR as (P & LP & BB & TO & RS & WS).
  pose proof (todo_nonneg _ _ TO). pose proof (len_nonneg d).
  pose proof (total_nonneg rest).
  rewrite B in BB. simpl in BB.
  unfold in_range. simpl. repeat split; try exact TO; lia.
Qed.

Lemma in_range_seek (offset whence : Z) (w w' : bridge) (r : result unit) :
  seek offset whence w = (w', r) ->
  in_range w -> in_range w'.
Proof.
  intros SK IR. destruct IR as (P & LP & BB & TO & RS & WS).
  pose proof (todo_nonneg _ _ TO). pose proof (ld_len_nonneg (last_data w)).
  unfold seek in SK.
  destruct (whence =? SEEK_END).
  - destruct (offset =? 0); simpl in SK; inversion SK; subst; clear SK;
      unfold in_range; simpl; repeat split; auto; try exact TO; lia.
  - destruct (whence =? SEEK_SET);
      [|inversion SK; subst; unfold in_range; auto 10].
    destruct (Z.eqb_spec offset (position w));
      [inversion SK; subst; unfold in_range; auto 10|].
    destruct (Z.eqb_spec offset (last_position w)) as [E|E].
    + assert (N : position w <> last_position w) by lia.
      specialize (WS N).
      destruct (last_data w) as [[|b d]|] eqn:LD;
        inversion SK; subst; clear SK; unfold in_range; fields;
        repeat split; auto; try exact TO; lia.
    + inversion SK; subst; clear SK. unfold in_range. simpl. auto 10.
Qed.

Lemma drain_total (buf : list chunk) :
  exists buf', drain buf (total buf) = (buf', 0, true) /\ total buf' = 0.
Proof.
  induction buf as [|d rest IH]; simpl.
  - exists []. auto.
  - destruct (Z.eqb_spec (len d + total rest) 0) as [E|E].
    + exists (d :: rest). simpl. rewrite E. auto.
    + replace (len d + total rest - len d) with (total rest) by lia. exact IH.
Qed.

Lemma in_range_seek_drain (w w' : bridge) (r : result unit) :
  seek_drain w = (w', r) ->
  in_range w -> in_range w' /\ r = Yield /\ bytes_buffered w' = 0.
Proof.
  intros SD IR. destruct IR as (P & LP & BB & TO & RS & WS).
  pose proof (todo_nonneg _ _ TO). pose proof (ld_len_nonneg (last_data w)).
  pose proof (total_nonneg (buffer w)).
  unfold seek_drain in SD. rewrite BB in SD.
  destruct (drain_total (buffer w)) as (buf' & D & T). rewrite D in SD.
  inversion SD; subst; clear SD. unfold in_range. simpl.
  repeat split; auto; try exact TO; lia.
Qed.

Lemma in_range_seek_restart (offset : Z) (w : bridge) :
  0 <= offset <= src_obj_size w ->
  0 <= last_position w <= src_obj_size w ->
  in_range (seek_restart offset w).
Proof.
  intros O _. unfold in_range. simpl. repeat split; lia.
Qed.

(** Every step keeps position and [last_position] inside the object. *)
Lemma sound_step (n : Z) (e : event) (st st' : system) (o : outcome) :
  fetch_fits n -> seeks_within n e ->
  step e st = Some (st', o) ->
  sound n st -> sound n st'.
Proof.
  intros FF SW S (Sz & IR & CO). destruct st as [w c]. destruct st' as [w' c'].
  simpl in Sz, IR, CO. unfold sound. simpl. subst n.
  destruct e; simpl in S.
  - (* Download *)
    destruct (download_tick w) as [[w1 a]|] eqn:D; inversion S; subst; clear S.
    destruct (download_tick_frame _ _ _ D) as (Pw & _ & _ & Sw & _).
    split; [exact Sw|]. split.
    + eapply in_range_download; [|exact D|exact IR]. exact FF.
    + destruct c'; simpl in *; rewrite ?Pw, ?Sw; exact CO.
  - (* Call_read *)
    destruct c; try discriminate.
    destruct (read amt w) as [w1 r] eqn:RD.
    destruct (read_cases _ _ _ _ RD)
      as [(-> & -> & _)|[(-> & -> & _)|(a & -> & En & RW)]];
      try (simpl in S; inversion S; subst; simpl; auto).
    destruct En as (NE & _).
    pose proof (in_range_read_wait _ _ _ _ NE RW IR) as IR'.
    destruct (read_wait_cases _ _ _ _ RW)
      as [(_ & -> & ->)|(d & rest & _ & -> & [(_ & ->)|(_ & ->)])];
      simpl in S; inversion S; subst; simpl; auto.
  - (* Call_tell *)
    destruct c; try discriminate. inversion S; subst. simpl. auto.
  - (* Call_seek *)
    destruct c; try discriminate.
    destruct (seek offset whence w) as [w1 r] eqn:SK.
    pose proof (in_range_seek _ _ _ _ _ SK IR) as IR'.
    assert (Sz' : src_obj_size w1 = src_obj_size w /\
                  (r = Yield -> whence = SEEK_SET)).
    { unfold seek in SK.
      destruct (Z.eqb_spec whence SEEK_END);
        [destruct (offset =? 0); inversion SK; subst; split;
         try reflexivity; discriminate|].
      destruct (Z.eqb_spec whence SEEK_SET);
        [|inversion SK; subst; split; [reflexivity|discriminate]].
      destruct (offset =? position w);
        [inversion SK; subst; split; [reflexivity|discriminate]|].
      destruct (offset =? last_position w);
        [destruct (last_data w) as [[|b d]|]|];
        inversion SK; subst; split; try reflexivity; try discriminate; auto. }
    destruct Sz' as (Sz' & Y).
    destruct r; simpl in S; inversion S; subst; simpl;
      (split; [exact Sz'|]); (split; [exact IR'|]); auto.
    rewrite Sz'. apply SW. apply Y. reflexivity.
  - (* Resume *)
    destruct c; try discriminate.
    + destruct (read_wait amt w) as [w1 r] eqn:RW.
      pose proof (in_range_read_wait _ _ _ _ CO RW IR) as IR'.
      destruct (read_wait_cases _ _ _ _ RW)
        as [(_ & -> & ->)|(d & rest & _ & -> & [(_ & ->)|(_ & ->)])];
        simpl in S; inversion S; subst; simpl; auto.
    + destruct (is_alive (download_thread w)); inversion S; subst; simpl.
      * auto.
      * split; [reflexivity|]. split; [|exact I].
        apply in_range_seek_restart; [exact CO|apply IR].
    + destruct (seek_drain w) as [w1 r] eqn:SD.
      destruct (in_range_seek_drain _ _ _ SD IR) as (IR' & -> & _).
      assert (Sz' : src_obj_size w1 = src_obj_size w).
      { unfold seek_drain in SD.
        destruct (drain (buffer w) (bytes_buffered w)) as [[buf bb] ok].
        destruct ok; inversion SD; reflexivity. }
      simpl in S. inversion S; subst. simpl. rewrite Sz'. auto.
Qed.

Lemma run_invariant_on (Q : event -> Prop) (P : system -> Prop) :
  (forall e st st' o, Q e -> step e st = Some (st', o) -> P st -> P st') ->
  forall evs st st' os,
    Forall Q evs -> run evs st = Some (st', os) -> P st -> P st'.
Proof.
  intros Hstep. induction evs as [|e evs IH]; simpl; intros st st' os F R H.
  - inversion R; subst. exact H.
  - inversion F; subst.
    destruct (step e st) as [[st1 o]|] eqn:S; [|discriminate].
    destruct (run evs st1) as [[st2 os2]|] eqn:R1; [|discriminate].
    inversion R; subst. eapply IH; [assumption|exact R1|].
    eapply Hstep; eassumption.
Qed.

Lemma total_concat (chunks : list chunk) : total chunks = len (concat chunks).
Proof.
  induction chunks as [|c rest IH]; simpl; [reflexivity|].
  unfold len in *. rewrite length_app. lia.
Qed.

(** A client that delivers an object of [n] bytes fits. *)
Lemma delivers_fits (obj : list byte) :
  delivers obj GetObjectMedia -> fetch_fits (len obj).
Proof.
  intros Dl. pose proof chunk_size_pos as HR. split.
  - intros sb Hsb. rewrite total_concat, (Dl _ _ Hsb). unfold slice, len.
    rewrite length_firstn. lia.
  - intros sb Hsb. rewrite total_concat, (Dl _ _ (proj1 Hsb)).
    unfold slice, len in *. rewrite length_skipn. lia.
Qed.

(** C6 (as the code has it).  With a fetch client that delivers the object
    and seeks from the start only to offsets inside the object,
    [0 <= position <= src_obj_size] holds in every state reached from a
    fresh wrapper by any schedule of the download thread and the calls of
    [read], [tell] and [seek]. *)
Theorem position_in_range (obj : list byte) (evs : list event) (st : system)
    (os : list outcome) :
  delivers obj GetObjectMedia ->
  Forall (seeks_within (len obj)) evs ->
  run evs (start (len obj)) = Some (st, os) ->
  src_obj_size (wrapper st) = len obj /\
  0 <= position (wrapper st) <= src_obj_size (wrapper st).
Proof.
  intros Dl F R.
  assert (So : sound (len obj) st).
  { apply (run_invariant_on (seeks_within (len obj)) (sound (len obj)))
      with (evs := evs) (st := start (len obj)) (os := os).
    - intros e s s' o Q S H. eapply sound_step; try eassumption.
      apply delivers_fits. exact Dl.
    - exact F.
    - exact R.
    - pose proof (len_nonneg obj). unfold sound, in_range. simpl.
      repeat split; auto; lia. }
  destruct So as (Sz & (P & _) & _). auto.
Qed.

(** ** Restart *)

Lemma upstream_head (obj : list byte) (offset : Z) (w : bridge)
    (d : chunk) (rest : list chunk) :
  upstream obj offset w -> buffer w = d :: rest ->
  is_prefix d (skipn (Z.to_nat offset) obj).
Proof.
  unfold upstream, is_prefix. intros U B. rewrite B in U. simpl in U.
  destruct (download_thread w) as [sb|[sb|] pending adm|].
  - destruct U as (_ & U). rewrite <- U, <- app_assoc. eauto.
  - destruct U as (_ & U). rewrite <- U, <- app_assoc. eauto.
  - rewrite <- U, <- app_assoc. eauto.
  - destruct U as (tail & U). rewrite U, <- app_assoc. eauto.
Qed.

Lemma skipn_window (obj : list byte) (sb : Z) :
  0 <= sb ->
  firstn (Z.to_nat (sb + DAISY_CHAIN_CHUNK_SIZE - 1 - sb + 1))
         (skipn (Z.to_nat sb) obj)
  ++ skipn (Z.to_nat (sb + DAISY_CHAIN_CHUNK_SIZE)) obj
  = skipn (Z.to_nat sb) obj.
Proof.
  intros H. pose proof chunk_size_pos.
  replace (sb + DAISY_CHAIN_CHUNK_SIZE - 1 - sb + 1)
    with DAISY_CHAIN_CHUNK_SIZE by lia.
  replace (Z.to_nat (sb + DAISY_CHAIN_CHUNK_SIZE))
    with (Z.to_nat DAISY_CHAIN_CHUNK_SIZE + Z.to_nat sb)%nat by lia.
  rewrite <- skipn_skipn. apply firstn_skipn.
Qed.

Lemma upstream_download (obj : list byte) (offset : Z) (w w' : bridge)
    (a : action) :
  delivers obj GetObjectMedia ->
  download_tick w = Some (w', a) ->
  upstream obj offset w -> upstream obj offset w'.
Proof.
  intros Dl D U. pose proof chunk_size_pos as HR.
  destruct w as [pos buf bb mx lp ld sz th stop].
  unfold upstream, download_tick in *.
  cbn [download_thread buffer src_obj_size stop_download bytes_buffered
       max_buffer_size] in *.
  destruct th as [sb|k pending adm|]; simpl in D; [| |discriminate].
  - destruct U as (Hsb & U).
    destruct (sb + DAISY_CHAIN_CHUNK_SIZE <? sz);
      inversion D; subst; clear D; cbn [download_thread buffer perform set_thread].
    + split; [exact Hsb|]. rewrite (Dl _ _ Hsb). unfold slice.
      rewrite skipn_window by exact Hsb. exact U.
    + rewrite (Dl _ _ Hsb). exact U.
  - destruct pending as [|d rest].
    + destruct k as [sb|]; [destruct stop|]; destruct adm;
        inversion D; subst; clear D;
        cbn [download_thread buffer perform set_thread concat app] in *;
        try (destruct U as (Hsb & U));
        try (split; [lia|exact U]);
        try (eexists; symmetry; exact U).
    + destruct adm; [|destruct (bb <? mx)];
        destruct k as [sb|]; inversion D; subst; clear D;
        cbn [download_thread buffer perform set_thread locked position
             last_position last_data] in *;
        try exact U;
        rewrite concat_app; cbn [concat] in *; rewrite app_nil_r.
      * destruct U as (Hsb & U). split; [exact Hsb|].
        rewrite <- U, <- !app_assoc. reflexivity.
      * rewrite <- U, <- !app_assoc. reflexivity.
Qed.

(** A restart in its loop stays there for as long as nothing returns or
    raises. *)
Lemma seeking_step (offset : Z) (e : event) (st st' : system) (o : outcome) :
  seeking offset st -> step e st = Some (st', o) -> unfinished o ->
  seeking offset st'.
Proof.
  unfold seeking. destruct st as [w c]. simpl. intros [-> | ->] S U;
    destruct e; simpl in S; try discriminate.
  - destruct (download_tick w) as [[w1 a]|]; inversion S; subst. simpl. auto.
  - destruct (is_alive (download_thread w)); inversion S; subst; simpl in *;
      [auto|contradiction].
  - destruct (download_tick w) as [[w1 a]|]; inversion S; subst. simpl. auto.
  - destruct (seek_drain w) as [w1 [[]|x|]]; simpl in S; inversion S; subst;
      simpl in *; try contradiction. auto.
Qed.

Lemma seeking_until (offset : Z) (evs : list event) :
  forall st st' os,
    seeking offset st -> run evs st = Some (st', os) ->
    Forall unfinished os -> seeking offset st'.
Proof.
  induction evs as [|e evs IH]; simpl; intros st st' os Sk R F.
  - inversion R; subst. exact Sk.
  - destruct (step e st) as [[st1 o]|] eqn:S; [|discriminate].
    destruct (run evs st1) as [[st2 os2]|] eqn:R1; [|discriminate].
    inversion R; subst; clear R. inversion F; subst.
    eapply IH; [|exact R1|assumption]. eapply seeking_step; eassumption.
Qed.


Lemma streaming_step (obj : list byte) (offset : Z) (e : event)
    (st st' : system) (o : outcome) :
  delivers obj GetObjectMedia ->
  streaming obj offset st -> step e st = Some (st', o) -> unfinished o ->
  streaming obj offset st'.
Proof.
  intros Dl St S U. destruct st as [w c]. unfold streaming in *. simpl in *.
  destruct e; simpl in S.
  - destruct (download_tick w) as [[w1 a]|] eqn:D; inversion S; subst; simpl.
    destruct c; auto; eapply upstream_download; eassumption.
  - destruct c; try discriminate.
    destruct (read amt w) as [w1 r] eqn:RD.
    destruct (read_cases _ _ _ _ RD)
      as [(-> & -> & _)|[(-> & -> & _)|(a & -> & _ & RW)]];
      try (simpl in S; inversion S; subst; simpl in U; contradiction).
    destruct (read_wait_cases _ _ _ _ RW)
      as [(_ & -> & ->)|(d & rest & _ & -> & [(_ & ->)|(_ & ->)])];
      simpl in S; inversion S; subst; simpl in *; try contradiction. exact St.
  - destruct c; try discriminate. inversion S; subst. contradiction.
  - destruct c; try discriminate.
    destruct (seek offset0 whence w) as [w1 [[]|x|]]; simpl in S;
      inversion S; subst; simpl in *; try contradiction. exact I.
  - destruct c; try discriminate.
    + destruct (read_wait amt w) as [w1 r] eqn:RW.
      destruct (read_wait_cases _ _ _ _ RW)
        as [(_ & -> & ->)|(d & rest & _ & -> & [(_ & ->)|(_ & ->)])];
        simpl in S; inversion S; subst; simpl in *; try contradiction. exact St.
    + destruct (is_alive (download_thread w)); inversion S; subst; simpl in *;
        [exact I|contradiction].
    + destruct (seek_drain w) as [w1 [[]|x|]]; simpl in S; inversion S; subst;
        simpl in *; try contradiction. exact I.
Qed.

Lemma streaming_until (obj : list byte) (offset : Z) (evs : list event) :
  delivers obj GetObjectMedia ->
  forall st st' os,
    streaming obj offset st -> run evs st = Some (st', os) ->
    Forall unfinished os -> streaming obj offset st'.
Proof.
  intros Dl. induction evs as [|e evs IH]; simpl; intros st st' os Sk R F.
  - inversion R; subst. exact Sk.
  - destruct (step e st) as [[st1 o]|] eqn:S; [|discriminate].
    destruct (run evs st1) as [[st2 os2]|] eqn:R1; [|discriminate].
    inversion R; subst; clear R. inversion F; subst.
    eapply IH; [|exact R1|assumption]. eapply streaming_step; eassumption.
Qed.

(** The bytes a read returns while the stream is untouched are the first
    bytes of the object from [offset]. *)
Lemma streaming_read (obj : list byte) (offset : Z) (e : event)
    (st st' : system) (d : chunk) :
  streaming obj offset st -> step e st = Some (st', Returned (Bytes d)) ->
  is_prefix d (skipn (Z.to_nat offset) obj).
Proof.
  intros St S. destruct st as [w c]. unfold streaming in *. simpl in *.
  assert (POP : forall amt, upstream obj offset w ->
            answer Bytes (Reading amt) (read_wait amt w)
              = Some (st', Returned (Bytes d)) ->
            is_prefix d (skipn (Z.to_nat offset) obj)).
  { intros amt U A. destruct (read_wait amt w) as [w1 r] eqn:RW.
    destruct (read_wait_cases _ _ _ _ RW)
      as [(_ & -> & ->)|(x & rest & B & -> & [(_ & ->)|(_ & ->)])];
      simpl in A; inversion A; subst.
    eapply upstream_head; eassumption. }
  destruct e; simpl in S.
  - destruct (download_tick w) as [[w1 a]|]; inversion S.
  - destruct c; try discriminate.
    destruct (read amt w) as [w1 r] eqn:RD.
    destruct (read_cases _ _ _ _ RD)
      as [(-> & -> & _)|[(-> & -> & _)|(a & -> & _ & RW)]].
    + simpl in S. inversion S; subst. exists (skipn (Z.to_nat offset) obj).
      reflexivity.
    + simpl in S. inversion S.
    + rewrite <- RW in S. eapply POP; eassumption.
  - destruct c; discriminate.
  - destruct c; try discriminate.
    destruct (seek offset0 whence w) as [w1 [[]|x|]]; simpl in S; inversion S.
  - destruct c; try discriminate.
    + eapply POP; eassumption.
    + destruct (is_alive (download_thread w)); inversion S.
    + destruct (seek_drain w) as [w1 [[]|x|]]; simpl in S; inversion S.
Qed.




(** ** Further properties *)

(** *** [seek] by cases *)
Lemma seek_cases (offset whence : Z) (w w' : bridge) (r : result unit) :
  seek offset whence w = (w', r) ->
  (whence = SEEK_END /\ offset <> 0 /\ w' = w /\ r = Raise BadRequestException) \/
  (whence = SEEK_END /\ offset = 0 /\ r = Return tt /\
   w' = locked w (src_obj_size w) (buffer w) (bytes_buffered w)
               (position w) None) \/
  (whence = SEEK_SET /\ offset = position w /\ w' = w /\ r = Return tt) \/
  (whence = SEEK_SET /\ offset <> position w /\ offset = last_position w /\
   r = Return tt /\
   exists b d, last_data w = Some (b :: d) /\
     w' = locked w (last_position w) ((b :: d) :: buffer w)
                 (bytes_buffered w + len (b :: d)) (last_position w)
                 (last_data w)) \/
  (whence = SEEK_SET /\ offset <> position w /\ offset = last_position w /\
   r = Return tt /\
   (last_data w = None \/ last_data w = Some []) /\
   w' = locked w (last_position w) (buffer w) (bytes_buffered w)
               (last_position w) (last_data w)) \/
  (whence = SEEK_SET /\ offset <> position w /\ offset <> last_position w /\
   r = Yield /\ w' = set_thread w (download_thread w) true) \/
  (whence <> SEEK_SET /\ whence <> SEEK_END /\ w' = w /\ r = Raise IOError).
Proof.
  unfold seek. intros H.
  destruct (Z.eqb_spec whence SEEK_END) as [WE|WE].
  - destruct (Z.eqb_spec offset 0) as [O|O]; simpl in H; inversion H; subst.
    + right; left. auto.
    + left. auto.
  - destruct (Z.eqb_spec whence SEEK_SET) as [WS|WS].
    + destruct (Z.eqb_spec offset (position w)) as [P|P].
      * inversion H; subst. right; right; left. auto.
      * destruct (Z.eqb_spec offset (last_position w)) as [L|L].
        -- destruct (last_data w) as [[|b d]|] eqn:LD; inversion H; subst.
           ++ do 4 right; left. repeat split; auto.
           ++ do 3 right; left. repeat split; auto. exists b, d. auto.
           ++ do 4 right; left. repeat split; auto.
        -- inversion H; subst. do 5 right; left. auto.
    + inversion H; subst. do 6 right. auto.
Qed.

Lemma run_cons_inv (e : event) (evs : list event) (st st' : system)
    (os : list outcome) :
  run (e :: evs) st = Some (st', os) ->
  exists st1 o os1,
    step e st = Some (st1, o) /\ run evs st1 = Some (st', os1) /\
    os = o :: os1.
Proof.
  simpl. destruct (step e st) as [[st1 o]|]; [|discriminate].
  destruct (run evs st1) as [[st2 os2]|] eqn:R; [|discriminate].
  intros H; inversion H; subst. exists st1, o, os2. repeat split. exact R.
Qed.

(** *** The byte counter and the deque *)

Lemma read_wait_counted (amt : Z) (w w' : bridge) (r : result chunk) :
  read_wait amt w = (w', r) ->
  bytes_buffered w = total (buffer w) ->
  bytes_buffered w' = total (buffer w') /\
  max_buffer_size w' = max_buffer_size w /\
  src_obj_size w' = src_obj_size w /\
  r <> Raise IndexError.
Proof.
  intros RW BB.
  destruct (read_wait_cases _ _ _ _ RW)
    as [(_ & -> & ->)|(d & rest & B & -> & [(_ & ->)|(_ & ->)])].
  - repeat split; auto. discriminate.
  - rewrite B in BB. cbn [total] in BB. cbn [locked bytes_buffered buffer
      max_buffer_size src_obj_size]. repeat split; try lia. discriminate.
  - rewrite B in BB. cbn [total] in BB. cbn [locked bytes_buffered buffer
      max_buffer_size src_obj_size]. repeat split; try lia. discriminate.
Qed.

Lemma counted_step (size : Z) (e : event) (st st' : system) (o : outcome) :
  counted size st -> step e st = Some (st', o) ->
  counted size st' /\ o <> Raised IndexError.
Proof.
  intros (Sz & Mx & BB) S. destruct st as [w c]. unfold counted in *.
  simpl in Sz, Mx, BB. destruct e; simpl in S.
  - destruct (download_tick w) as [[w1 a]|] eqn:D; inversion S; subst; clear S.
    destruct (download_tick_frame _ _ _ D) as (_ & _ & _ & S1 & M1 & x & B1 & B2).
    simpl. rewrite S1, M1, B1, B2, total_app, BB. repeat split; auto. discriminate.
  - destruct c; try discriminate.
    destruct (read amt w) as [w1 r] eqn:RD.
    destruct (read_cases _ _ _ _ RD)
      as [(-> & -> & _)|[(-> & -> & _)|(a & -> & _ & RW)]];
      try (simpl in S; inversion S; subst; simpl; repeat split; auto; discriminate).
    destruct (read_wait_counted _ _ _ _ RW BB) as (B1 & M1 & S1 & N1).
    destruct r; simpl in S; inversion S; subst; simpl; rewrite M1, S1;
      repeat split; auto; try discriminate. congruence.
  - destruct c; try discriminate. inversion S; subst. simpl.
    repeat split; auto. discriminate.
  - destruct c; try discriminate.
    destruct (seek offset whence w) as [w1 r] eqn:SK.
    destruct (seek_cases _ _ _ _ _ SK)
      as [(_ & _ & -> & ->)|[(_ & _ & -> & ->)|[(_ & _ & -> & ->)
         |[(_ & _ & _ & -> & b & d & LD & ->)|[(_ & _ & _ & -> & _ & ->)
         |[(_ & _ & _ & -> & ->)|(_ & _ & -> & ->)]]]]]];
      simpl in S; inversion S; subst; fields;
      repeat split; auto; try discriminate; lia.
  - destruct c; try discriminate.
    + destruct (read_wait amt w) as [w1 r] eqn:RW.
      destruct (read_wait_counted _ _ _ _ RW BB) as (B1 & M1 & S1 & N1).
      destruct r; simpl in S; inversion S; subst; simpl; rewrite M1, S1;
        repeat split; auto; try discriminate. congruence.
    + destruct (is_alive (download_thread w)); inversion S; subst; simpl;
        repeat split; auto; discriminate.
    + unfold seek_drain in S. rewrite BB in S.
      destruct (drain_total (buffer w)) as (buf' & D & T). rewrite D in S.
      simpl in S. inversion S; subst. simpl. repeat split; auto. discriminate.
Qed.

Lemma counted_run (size : Z) (evs : list event) : forall st st' os,
  counted size st -> run evs st = Some (st', os) ->
  counted size st' /\ ~ In (Raised IndexError) os.
Proof.
  induction evs as [|e evs IH]; intros st st' os C R.
  - simpl in R. inversion R; subst. split; [exact C|intros []].
  - destruct (run_cons_inv _ _ _ _ _ R) as (st1 & o & os1 & S & R1 & ->).
    destruct (counted_step _ _ _ _ _ C S) as (C1 & N).
    destruct (IH _ _ _ C1 R1) as (C2 & NI).
    split; [exact C2|]. intros [X|X]; [congruence|contradiction].
Qed.

(** X1.  However the download thread and the calls are interleaved, the byte
    counter is the number of bytes on the deque, the capacity and the object
    size are what [__init__] made them, and the drain loop of [seek] never
    pops from an empty deque. *)
Theorem byte_counter_counts (size : Z) (evs : list event) (st : system)
    (os : list outcome) :
  run evs (start size) = Some (st, os) ->
  bytes_buffered (wrapper st) = total (buffer (wrapper st)) /\
  0 <= bytes_buffered (wrapper st) /\
  max_buffer_size (wrapper st) = 1024 * 1024 /\
  src_obj_size (wrapper st) = size /\
  ~ In (Raised IndexError) os.
Proof.
  intros R.
  destruct (counted_run size evs (start size) st os) as ((Sz & Mx & BB) & NI).
  - unfold counted. simpl. auto.
  - exact R.
  - repeat split; auto. rewrite BB. apply total_nonneg.
Qed.

(** *** Without seeks *)

Lemma undisturbed_step (e : event) (st st' : system) (o : outcome) :
  undisturbed st -> seek_free e -> step e st = Some (st', o) ->
  undisturbed st' /\ o <> Ran StopAck /\
  src_obj_size (wrapper st') = src_obj_size (wrapper st) /\
  (e <> Download -> download_thread (wrapper st') = download_thread (wrapper st)).
Proof.
  intros (St & C) SF S. destruct st as [w c]. unfold undisturbed in *.
  simpl in St, C. destruct e; simpl in S; try contradiction.
  - destruct (download_tick w) as [[w1 a]|] eqn:D; inversion S; subst; clear S.
    unfold download_tick in D. rewrite St in D.
    destruct (PerformDownload (src_obj_size w) false
                (bytes_buffered w <? max_buffer_size w) (download_thread w))
      as [[t b]|] eqn:P; [|discriminate].
    inversion D; subst; clear D.
    destruct (PerformDownload_ahead _ _ _ _ _ _ P) as [(_ & _ & X)|(N & _)];
      [discriminate|].
    simpl. repeat split; auto; try congruence;
      destruct a; simpl; auto; contradiction.
  - destruct c; try contradiction; try discriminate.
    destruct (read amt w) as [w1 r] eqn:RD.
    destruct (read_cases _ _ _ _ RD)
      as [(-> & -> & _)|[(-> & -> & _)|(a & -> & _ & RW)]];
      try (simpl in S; inversion S; subst; simpl; repeat split; auto; discriminate).
    destruct (read_wait_cases _ _ _ _ RW)
      as [(_ & -> & ->)|(d & rest & _ & -> & [(_ & ->)|(_ & ->)])];
      simpl in S; inversion S; subst; simpl; repeat split; auto; discriminate.
  - destruct c; try contradiction; try discriminate. inversion S; subst. simpl.
    repeat split; auto. discriminate.
  - destruct c; try contradiction; try discriminate.
    destruct (read_wait amt w) as [w1 r] eqn:RW.
    destruct (read_wait_cases _ _ _ _ RW)
      as [(_ & -> & ->)|(d & rest & _ & -> & [(_ & ->)|(_ & ->)])];
      simpl in S; inversion S; subst; simpl; repeat split; auto; discriminate.
Qed.

Lemma event_eq_Download (e : event) : e = Download \/ e <> Download.
Proof. destruct e; [left; reflexivity|right; discriminate ..]. Qed.

Lemma consumer_outcome (e : event) (st st' : system) (o : outcome) :
  step e st = Some (st', o) -> e <> Download -> actions [o] = [].
Proof.
  intros S N. destruct st as [w c].
  assert (A : forall (X : Type) (inj : X -> value) p wr,
             answer inj p wr = Some (st', o) -> actions [o] = []).
  { intros X inj p [w1 [v|x|]] H; simpl in H; inversion H; reflexivity. }
  destruct e; simpl in S; try (exfalso; apply N; reflexivity);
    destruct c; try discriminate; try (eapply A; exact S);
    try (inversion S; subst; reflexivity).
  destruct (is_alive (download_thread w)); inversion S; subst; reflexivity.
Qed.

Lemma plan_step (n : Z) (e : event) (st st' : system) (o : outcome) :
  undisturbed st -> seek_free e -> step e st = Some (st', o) ->
  src_obj_size (wrapper st) = n ->
  requests (actions [o]) ++ ahead n (download_thread (wrapper st'))
  = ahead n (download_thread (wrapper st)).
Proof.
  intros U SF S E.
  destruct (undisturbed_step _ _ _ _ U SF S) as (_ & N & _ & T).
  destruct (event_eq_Download e) as [->|ND].
  2:{ rewrite (consumer_outcome _ _ _ _ S ND), (T ND). reflexivity. }
  destruct st as [w c]. simpl in S, E |- *.
  destruct (download_tick w) as [[w1 a]|] eqn:D; inversion S; subst; clear S.
  unfold download_tick in D.
  destruct (PerformDownload (src_obj_size w) (stop_download w)
              (bytes_buffered w <? max_buffer_size w) (download_thread w))
    as [[t b]|] eqn:P; [|discriminate].
  inversion D; subst; clear D.
  destruct (PerformDownload_ahead _ _ _ _ _ _ P) as [(X & _)|(_ & A)].
  - subst. exfalso. apply N. reflexivity.
  - simpl. destruct a; exact A.
Qed.

(** X2.  With no call of [seek], the stop event stays clear, the download thread
    never exits on a stop, and what it has asked of the fetch client is the
    beginning of its plan from 0: the ranges of [DAISY_CHAIN_CHUNK_SIZE]
    bytes in order, then the open-ended fetch; once it has exited it has
    asked for all of it. *)
Theorem downloads_follow_plan (size : Z) (evs : list event) (st : system)
    (os : list outcome) :
  Forall seek_free evs ->
  run evs (start size) = Some (st, os) ->
  stop_download (wrapper st) = false /\
  ~ In StopAck (actions os) /\
  requests (actions os) ++ ahead size (download_thread (wrapper st))
    = plan 0 size /\
  (download_thread (wrapper st) = Dead -> requests (actions os) = plan 0 size).
Proof.
  intros F R.
  assert (G : forall evs st st' os,
             undisturbed st -> src_obj_size (wrapper st) = size ->
             Forall seek_free evs -> run evs st = Some (st', os) ->
             undisturbed st' /\ ~ In StopAck (actions os) /\
             requests (actions os) ++ ahead size (download_thread (wrapper st'))
             = ahead size (download_thread (wrapper st))).
  { clear F R. induction evs0 as [|e evs0 IH]; intros st0 st' os0 U Sz F R.
    - simpl in R. inversion R; subst. simpl. auto.
    - apply Forall_cons_iff in F. destruct F as [Fe Fr].
      destruct (run_cons_inv _ _ _ _ _ R) as (st1 & o & os1 & S & R1 & ->).
      destruct (undisturbed_step _ _ _ _ U Fe S) as (U1 & N & Sz1 & _).
      pose proof (plan_step size _ _ _ _ U Fe S Sz) as A.
      destruct (IH st1 st' os1 U1 ltac:(congruence) Fr R1) as (U2 & NI & A2).
      split; [exact U2|]. split.
      + destruct o; simpl; auto. intros [X|X]; [subst; congruence|contradiction].
      + rewrite <- A, <- A2.
        change (o :: os1) with ([o] ++ os1).
        assert (AA : forall xs ys, actions (xs ++ ys) = actions xs ++ actions ys).
        { clear. induction xs as [|x xs IHx]; intros ys; simpl; [reflexivity|].
          destruct x; simpl; rewrite ?IHx; reflexivity. }
        rewrite AA, requests_app, <- app_assoc. reflexivity. }
  destruct (G evs (start size) st os) as ((St & _) & NI & A); auto.
  - split; [reflexivity|exact I].
  - simpl in A. repeat split; auto.
    intros D. rewrite D in A. simpl in A. now rewrite app_nil_r in A.
Qed.

Lemma skipn_after (obj d rest : list byte) (o : Z) :
  0 <= o ->
  d ++ rest = skipn (Z.to_nat o) obj ->
  skipn (Z.to_nat (o + len d)) obj = rest.
Proof.
  intros Ho E. unfold len.
  replace (Z.to_nat (o + Z.of_nat (length d)))
    with (length d + Z.to_nat o)%nat by lia.
  rewrite <- skipn_skipn, <- E, skipn_app, skipn_all, Nat.sub_diag.
  reflexivity.
Qed.

(** Popping the leftmost chunk moves the stream on by its length. *)
Lemma upstream_pop (obj : list byte) (o : Z) (w : bridge) (d : chunk)
    (rest : list chunk) (pos bb lp : Z) (ld : option chunk) :
  0 <= o -> upstream obj o w -> buffer w = d :: rest ->
  upstream obj (o + len d) (locked w pos rest bb lp ld).
Proof.
  intros Ho U B. unfold upstream in *.
  cbn [locked download_thread buffer]. rewrite B in U. cbn [concat] in U.
  destruct (download_thread w) as [sb|[sb|] pending adm|].
  - destruct U as (Hsb & U). split; [exact Hsb|].
    rewrite <- app_assoc in U. symmetry. apply skipn_after; assumption.
  - destruct U as (Hsb & U). split; [exact Hsb|].
    rewrite <- app_assoc in U. symmetry. apply skipn_after; assumption.
  - rewrite <- app_assoc in U. symmetry. apply skipn_after; assumption.
  - destruct U as (tail & U). exists tail.
    rewrite <- app_assoc in U. apply skipn_after; [exact Ho|]. symmetry. exact U.
Qed.

Lemma intact_download (obj acc : list byte) (w w' : bridge) (a : action) :
  delivers obj GetObjectMedia ->
  stop_download w = false ->
  download_tick w = Some (w', a) ->
  intact obj acc w -> intact obj acc w'.
Proof.
  intros Dl St D (P0 & PL & AO & U & DE).
  destruct (download_tick_frame _ _ _ D) as (Pw & _).
  unfold intact. rewrite Pw.
  split; [exact P0|]. split; [exact PL|]. split; [exact AO|].
  split; [eapply upstream_download; eassumption|].
  intros Dd.
  destruct w as [pos buf bb mx lp ld sz th stop].
  unfold download_tick, upstream in *.
  cbn [download_thread buffer src_obj_size stop_download bytes_buffered
       max_buffer_size position] in *. subst stop.
  destruct th as [sb|k pending adm|]; simpl in D; [| |discriminate].
  - destruct (sb + DAISY_CHAIN_CHUNK_SIZE <? sz); inversion D; subst;
      discriminate Dd.
  - destruct pending as [|d rest].
    + destruct k as [sb|]; destruct adm; inversion D; subst;
        cbn [download_thread set_thread perform buffer] in *;
        try discriminate Dd;
        cbn [concat] in U; rewrite app_nil_r in U; exact U.
    + destruct adm; [|destruct (bb <? mx)]; destruct k; inversion D; subst;
        discriminate Dd.
Qed.

Lemma intact_read_wait (obj acc : list byte) (amt : Z) (w w' : bridge)
    (r : result chunk) :
  read_wait amt w = (w', r) ->
  intact obj acc w ->
  match r with
  | Return d => intact obj (acc ++ d) w'
  | Raise _ => True
  | Yield => w' = w
  end.
Proof.
  intros RW (P0 & PL & AO & U & DE).
  destruct (read_wait_cases _ _ _ _ RW)
    as [(_ & -> & ->)|(d & rest & B & -> & [(_ & ->)|(_ & ->)])]; auto.
  pose proof (len_nonneg d) as Hd.
  assert (H : exists tail, d ++ tail = skipn (Z.to_nat (position w)) obj).
  { destruct (upstream_head _ _ _ _ _ U B) as (tail & E). exists tail. auto. }
  destruct H as (tail & E).
  pose proof (skipn_after _ _ _ _ P0 E) as SA.
  unfold intact. cbn [locked position buffer download_thread].
  split; [lia|]. split.
  { rewrite PL. unfold len. rewrite length_app. lia. }
  split.
  { rewrite SA, <- app_assoc, E. exact AO. }
  split; [apply upstream_pop; assumption|].
  intros Dd. specialize (DE Dd). rewrite B in DE. cbn [concat] in DE.
  rewrite SA. rewrite <- E in DE. eapply app_inv_head. exact DE.
Qed.

Lemma returned_app (xs ys : list outcome) :
  returned (xs ++ ys) = returned xs ++ returned ys.
Proof.
  induction xs as [|x xs IH]; simpl; [reflexivity|].
  destruct x as [a|[d|n|]|e|]; simpl; rewrite ?IH, <- ?app_assoc; reflexivity.
Qed.

Lemma intact_step (obj acc : list byte) (e : event) (st st' : system)
    (o : outcome) :
  delivers obj GetObjectMedia ->
  undisturbed st -> seek_free e -> quiet o ->
  step e st = Some (st', o) ->
  intact obj acc (wrapper st) ->
  intact obj (acc ++ returned [o]) (wrapper st').
Proof.
  intros Dl (St & C) SF Q S IN. destruct st as [w c]. simpl in St, C, IN.
  assert (RWa : forall amt p,
            answer Bytes p (read_wait amt w) = Some (st', o) ->
            intact obj (acc ++ returned [o]) (wrapper st')).
  { intros amt p A. destruct (read_wait amt w) as [w1 r] eqn:RW.
    pose proof (intact_read_wait _ _ _ _ _ _ RW IN) as H.
    destruct r; simpl in A; inversion A; subst; simpl in *.
    - rewrite app_nil_r. exact H.
    - contradiction.
    - rewrite app_nil_r. exact IN. }
  destruct e; simpl in S; try contradiction.
  - destruct (download_tick w) as [[w1 a]|] eqn:D; inversion S; subst; clear S.
    simpl. rewrite app_nil_r. eapply intact_download; eassumption.
  - destruct c; try contradiction; try discriminate.
    destruct (read amt w) as [w1 r] eqn:RD.
    destruct (read_cases _ _ _ _ RD)
      as [(-> & -> & _)|[(-> & -> & _)|(a & -> & _ & RW)]].
    + simpl in S. inversion S; subst. simpl. rewrite app_nil_r. exact IN.
    + simpl in S. inversion S; subst. contradiction.
    + rewrite <- RW in S. eapply RWa. exact S.
  - destruct c; try contradiction; try discriminate.
    inversion S; subst. simpl. rewrite app_nil_r. exact IN.
  - destruct c; try contradiction; try discriminate.
    eapply RWa. exact S.
Qed.

Lemma intact_run (obj : list byte) :
  delivers obj GetObjectMedia ->
  forall evs st st' os acc,
    undisturbed st -> intact obj acc (wrapper st) ->
    Forall seek_free evs -> Forall quiet os ->
    run evs st = Some (st', os) ->
    intact obj (acc ++ returned os) (wrapper st').
Proof.
  intros Dl. induction evs as [|e evs IH]; intros st st' os acc U IN F Q R.
  - simpl in R. inversion R; subst. simpl. rewrite app_nil_r. exact IN.
  - apply Forall_cons_iff in F. destruct F as [Fe Fr].
    destruct (run_cons_inv _ _ _ _ _ R) as (st1 & o & os1 & S & R1 & ->).
    apply Forall_cons_iff in Q. destruct Q as [Qo Qr].
    destruct (undisturbed_step _ _ _ _ U Fe S) as (U1 & _).
    pose proof (intact_step _ _ _ _ _ _ Dl U Fe Qo S IN) as IN1.
    specialize (IH st1 st' os1 _ U1 IN1 Fr Qr R1).
    change (o :: os1) with ([o] ++ os1). rewrite returned_app, app_assoc.
    exact IH.
Qed.

(** X3.  With no call of [seek] and no read that raised, and a fetch client
    that delivers the object: what the reads returned, put end to end, is
    the beginning of the object, as long as the position says; and once the
    download thread has exited and the deque is empty, it is the whole
    object. *)
Theorem reads_in_order (obj : list byte) (size : Z) (evs : list event)
    (st : system) (os : list outcome) :
  delivers obj GetObjectMedia ->
  Forall seek_free evs ->
  Forall quiet os ->
  run evs (start size) = Some (st, os) ->
  returned os = firstn (Z.to_nat (position (wrapper st))) obj /\
  position (wrapper st) = len (returned os) /\
  (download_thread (wrapper st) = Dead -> buffer (wrapper st) = [] ->
   returned os = obj).
Proof.
  intros Dl F Q R.
  pose proof (intact_run obj Dl) as G.
  destruct (G evs (start size) st os [] ) as (P0 & PL & AO & U & DE); auto.
  - split; [reflexivity|exact I].
  - unfold intact, upstream. simpl. repeat split; auto; try lia; discriminate.
  - simpl in *. split; [|split; [exact PL|]].
    + rewrite <- AO at 1. rewrite PL. unfold len. rewrite Nat2Z.id.
      rewrite firstn_app, firstn_all, Nat.sub_diag. simpl.
      now rewrite app_nil_r.
    + intros Dd Be. specialize (DE Dd). rewrite Be in DE. simpl in DE.
      rewrite <- DE, app_nil_r in AO. exact AO.
Qed.

(** *** Where the bytes of a read come from *)

Lemma actions_app (xs ys : list outcome) :
  actions (xs ++ ys) = actions xs ++ actions ys.
Proof.
  induction xs as [|x xs IH]; intros; simpl; [reflexivity|].
  destruct x; simpl; rewrite ?IH; reflexivity.
Qed.

Lemma known_more (acts more : list action) (w : bridge) :
  known acts w -> known (acts ++ more) w.
Proof.
  intros (B & L). split.
  - eapply Forall_impl; [|exact B]. intros c H. apply in_or_app. now left.
  - intros c H. apply in_or_app. left. now apply L.
Qed.

Lemma known_read_wait (acts : list action) (amt : Z) (w w' : bridge)
    (r : result chunk) :
  read_wait amt w = (w', r) -> known acts w ->
  known acts w' /\ (forall d, r = Return d -> In (Append d) acts).
Proof.
  intros RW (B & L).
  destruct (read_wait_cases _ _ _ _ RW)
    as [(_ & -> & ->)|(d & rest & E & -> & [(_ & ->)|(_ & ->)])].
  - split; [split; assumption|discriminate].
  - rewrite E in B. inversion B; subst. split; [|discriminate].
    split; simpl; [assumption|]. intros c H. now inversion H; subst.
  - rewrite E in B. inversion B; subst. split.
    + split; simpl; [assumption|]. intros c H. now inversion H; subst.
    + intros d0 H. now inversion H; subst.
Qed.

Lemma known_step (acts : list action) (e : event) (st st' : system)
    (o : outcome) :
  known acts (wrapper st) -> step e st = Some (st', o) ->
  known (acts ++ actions [o]) (wrapper st') /\
  (forall d, o = Returned (Bytes d) -> d <> [] -> In (Append d) acts).
Proof.
  intros K S. destruct st as [w c]. simpl in K.
  assert (RWa : forall amt p,
            answer Bytes p (read_wait amt w) = Some (st', o) ->
            known (acts ++ actions [o]) (wrapper st') /\
            (forall d, o = Returned (Bytes d) -> d <> [] -> In (Append d) acts)).
  { intros amt p A. destruct (read_wait amt w) as [w1 r] eqn:RW.
    destruct (known_read_wait _ _ _ _ _ RW K) as (K1 & Rd).
    destruct r; simpl in A; inversion A; subst; simpl; rewrite app_nil_r;
      (split; [exact K1|]); intros d H; inversion H; subst.
    intros _. now apply Rd. }
  destruct e; simpl in S.
  - destruct (download_tick w) as [[w1 a]|] eqn:D; inversion S; subst; clear S.
    split; [|discriminate]. simpl.
    unfold download_tick in D.
    destruct (PerformDownload _ _ _ _) as [[t b]|]; [|discriminate].
    inversion D; subst; clear D. destruct K as (B & L).
    destruct a; simpl; try (apply known_more; split; assumption).
    split; simpl.
    + apply Forall_app. split.
      * eapply Forall_impl; [|exact B]. intros c0 H. apply in_or_app. now left.
      * constructor; [|constructor]. apply in_or_app. right. now left.
    + intros c0 H. apply in_or_app. left. now apply L.
  - destruct c; try discriminate.
    destruct (read amt w) as [w1 r] eqn:RD.
    destruct (read_cases _ _ _ _ RD)
      as [(-> & -> & _)|[(-> & -> & _)|(a & -> & _ & RW)]].
    + simpl in S. inversion S; subst. simpl. rewrite app_nil_r.
      split; [exact K|]. intros d H N. inversion H; subst. contradiction.
    + simpl in S. inversion S; subst. simpl. rewrite app_nil_r.
      split; [exact K|discriminate].
    + rewrite <- RW in S. eapply RWa. exact S.
  - destruct c; try discriminate. inversion S; subst. simpl.
    rewrite app_nil_r. split; [exact K|discriminate].
  - destruct c; try discriminate.
    destruct (seek offset whence w) as [w1 r] eqn:SK. destruct K as (B & L).
    destruct (seek_cases _ _ _ _ _ SK)
      as [(_ & _ & -> & ->)|[(_ & _ & -> & ->)|[(_ & _ & -> & ->)
         |[(_ & _ & _ & -> & b & d & LD & ->)|[(_ & _ & _ & -> & _ & ->)
         |[(_ & _ & _ & -> & ->)|(_ & _ & -> & ->)]]]]]];
      simpl in S; inversion S; subst; simpl; rewrite app_nil_r;
      (split; [|discriminate]); split; simpl; auto; try discriminate.
  - destruct c; try discriminate.
    + eapply RWa. exact S.
    + destruct (is_alive (download_thread w)); inversion S; subst; simpl;
        rewrite app_nil_r; (split; [|discriminate]); [exact K|].
      split; simpl; [constructor|discriminate].
    + unfold seek_drain in S.
      destruct (drain (buffer w) (bytes_buffered w)) as [[buf bb] ok] eqn:D.
      destruct (drain_spec _ _ _ _ _ D) as (gone & E & _).
      destruct K as (B & L). rewrite E in B. apply Forall_app in B.
      destruct ok; simpl in S; inversion S; subst; simpl; rewrite app_nil_r;
        (split; [|discriminate]); split; simpl; try apply B; exact L.
Qed.

(** X4.  Whatever the schedule and whatever the fetch client writes: a read
    that returns bytes returns one whole chunk, one that a write of the
    download thread appended earlier in the schedule; reads neither split
    nor join nor make up data. *)
Theorem reads_return_written_chunks (size : Z) (evs : list event)
    (st : system) (os os1 os2 : list outcome) (d : chunk) :
  run evs (start size) = Some (st, os) ->
  os = os1 ++ Returned (Bytes d) :: os2 ->
  d <> [] ->
  In (Append d) (actions os1).
Proof.
  intros R E N.
  assert (G : forall evs st st' os acts os1,
             known acts (wrapper st) -> run evs st = Some (st', os) ->
             os = os1 ++ Returned (Bytes d) :: os2 ->
             In (Append d) (acts ++ actions os1)).
  { clear R E. induction evs0 as [|e evs0 IH];
      intros st0 st' os0 acts os3 K R E.
    - simpl in R. inversion R; subst. destruct os3; discriminate.
    - destruct (run_cons_inv _ _ _ _ _ R) as (st1 & o & os' & S & R1 & ->).
      destruct (known_step _ _ _ _ _ K S) as (K1 & Rd).
      destruct os3 as [|o3 os3]; simpl in E; inversion E; subst.
      + simpl. rewrite app_nil_r. now apply Rd.
      + change (o3 :: os3) with ([o3] ++ os3).
        rewrite actions_app, app_assoc. eapply IH; [exact K1|exact R1|reflexivity]. }
  apply (G evs (start size) st os [] os1); auto.
  split; simpl; [constructor|discriminate].
Qed.

(** *** The byte counter without seeks back *)

Lemma bounded1_download (L : Z) (w w' : bridge) (c : consumer) (a : action) :
  0 <= L -> pieces_within L GetObjectMedia ->
  download_tick w = Some (w', a) ->
  bounded1 L (System w c) -> bounded1 L (System w' c).
Proof.
  intros HL PW D Bd.
  destruct w as [pos buf bb mx lp ld sz th stop].
  unfold bounded1, download_tick in *. simpl in *.
  destruct Bd as (M & B & AB & TP).
  destruct th as [sb|k pending adm|]; simpl in D, B.
  - destruct (sb + DAISY_CHAIN_CHUNK_SIZE <? sz);
      inversion D; subst; clear D; simpl;
      (split; [exact M|]); (split; [lia|]); (split; [exact AB|]);
      apply Forall_forall; intros d Hd; eapply PW; exact Hd.
  - destruct pending as [|d rest].
    + destruct k as [sb|]; [destruct stop|];
        destruct adm; inversion D; subst; clear D; simpl;
        (split; [exact M|]); (split; [lia|]); (split; [exact AB|]); exact I.
    + inversion TP as [|? ? Hd Hrest]; subst.
      pose proof (len_nonneg d).
      destruct adm; [|destruct (Z.ltb_spec bb mx)];
        destruct k; inversion D; subst; clear D; simpl in *;
        (split; [exact M|]); (split; [destruct rest; lia|]);
        (split; [first [exact AB|apply Forall_app; split;
                                  [exact AB|constructor; [exact Hd|constructor]]]|]);
        assumption.
  - discriminate.
Qed.

Lemma bounded1_read_wait (L amt : Z) (w w' : bridge) (r : result chunk)
    (c : consumer) :
  read_wait amt w = (w', r) ->
  bounded1 L (System w c) -> bounded1 L (System w' c).
Proof.
  intros RW Bd.
  destruct (read_wait_cases _ _ _ _ RW)
    as [(_ & -> & _)|(d & rest & B & -> & _)]; [exact Bd|].
  destruct Bd as (M & Bb & AB & TP). simpl in *.
  rewrite B in AB. inversion AB as [|? ? Hd Hrest]; subst.
  pose proof (len_nonneg d).
  unfold bounded1. simpl.
  split; [exact M|]. split; [lia|]. split; [exact Hrest|exact TP].
Qed.

Lemma bounded1_step (L : Z) (e : event) (st st' : system) (o : outcome) :
  0 <= L -> pieces_within L GetObjectMedia ->
  no_push_back e st ->
  step e st = Some (st', o) ->
  bounded1 L st -> bounded1 L st'.
Proof.
  intros HL PW NP S Bd. destruct st as [w c]. destruct st' as [w' c'].
  destruct e; simpl in S.
  - destruct (download_tick w) as [[w1 a]|] eqn:D; inversion S; subst.
    eapply bounded1_download; eassumption.
  - destruct c; try discriminate.
    destruct (read amt w) as [w1 r] eqn:RD.
    apply answer_wrapper in S. simpl in S. subst w1.
    destruct (read_cases _ _ _ _ RD)
      as [(-> & _)|[(-> & _)|(a & _ & _ & RW)]]; try exact Bd.
    eapply bounded1_read_wait; eassumption.
  - destruct c; try discriminate. inversion S; subst. exact Bd.
  - destruct c; try discriminate.
    destruct (seek offset whence w) as [w1 r] eqn:SK.
    apply answer_wrapper in S. simpl in S. subst w1.
    destruct Bd as (M & Bb & AB & TP). simpl in *.
    destruct (seek_cases _ _ _ _ _ SK)
      as [(_ & _ & -> & _)|[(_ & _ & _ & ->)|[(_ & _ & -> & _)
         |[(A1 & A2 & A3 & _ & b & d & LD & _)|[(_ & _ & _ & _ & _ & ->)
         |[(_ & _ & _ & _ & ->)|(_ & _ & -> & _)]]]]]];
      try (unfold bounded1; simpl; auto; fail).
    exfalso. apply NP. repeat split; auto. exists b, d. exact LD.
  - destruct c; try discriminate.
    + destruct (read_wait amt w) as [w1 r] eqn:RW.
      apply answer_wrapper in S. simpl in S. subst w1.
      eapply bounded1_read_wait; eassumption.
    + destruct Bd as (M & Bb & AB & TP). simpl in *.
      destruct (is_alive (download_thread w)); inversion S; subst.
      * unfold bounded1; simpl; auto.
      * unfold bounded1. simpl. split; [exact M|]. split; [lia|].
        split; [constructor|exact I].
    + destruct Bd as (M & Bb & AB & TP). simpl in *.
      unfold seek_drain in S.
      destruct (drain (buffer w) (bytes_buffered w)) as [[buf bb] ok] eqn:D.
      destruct (drain_spec _ _ _ _ _ D) as (gone & E & Ebb & _).
      pose proof (total_nonneg gone).
      assert (W : w' = locked w (position w) buf bb (last_position w) (last_data w))
        by (destruct ok; simpl in S; inversion S; reflexivity).
      subst w'. unfold bounded1. simpl.
      split; [exact M|]. split; [lia|]. split; [|exact TP].
      rewrite E in AB. apply Forall_app in AB. apply AB.
Qed.

(** X5.  As long as no seek puts a chunk back on the deque, the byte counter
    stays at or below [max_buffer_size - 1] plus one chunk: a write is let
    in only below capacity, and reads, seeks to the end and restarts only
    lower the counter. *)
Theorem write_soft_bound (L size : Z) (evs : list event) (st : system)
    (os : list outcome) :
  0 <= L ->
  pieces_within L GetObjectMedia ->
  along no_push_back evs (start size) ->
  run evs (start size) = Some (st, os) ->
  bytes_buffered (wrapper st) <= max_buffer_size (wrapper st) - 1 + L.
Proof.
  intros HL PW A R.
  assert (G : forall evs st st' os,
             bounded1 L st -> along no_push_back evs st ->
             run evs st = Some (st', os) -> bounded1 L st').
  { clear A R. induction evs0 as [|e evs0 IH]; intros st0 st' os0 Bd A R.
    - simpl in R. inversion R; subst. exact Bd.
    - destruct (run_cons_inv _ _ _ _ _ R) as (st1 & o & os1 & S & R1 & ->).
      simpl in A. rewrite S in A. destruct A as (NP & A).
      eapply IH; [|exact A|exact R1]. eapply bounded1_step; eassumption. }
  assert (Bd : bounded1 L st).
  { eapply G; [|exact A|exact R].
    unfold bounded1, start, init, StartDownloadThread, set_thread.
    cbn [wrapper bytes_buffered max_buffer_size download_thread buffer
         in_flight].
    split; [lia|]. split; [lia|]. split; [constructor|exact I]. }
  destruct Bd as (_ & B & _).
  assert (0 <= in_flight (download_thread (wrapper st))).
  { destruct (download_thread (wrapper st)) as [|k [|d r] [|]|]; simpl; try lia.
    apply len_nonneg. }
  lia.
Qed.

(** *** To the end and back *)

(** X6.  [seek(0, os.SEEK_END)] followed, after whatever the download thread
    does meanwhile, by a seek back to where the position was: no restart
    (thread and stop event untouched), nothing taken off the deque, the
    position as before; [last_position] is that position and [last_data]
    is empty, so the next read is what it would have been. *)
Theorem seek_end_and_back (st : system) (n : nat) (st2 : system)
    (os : list outcome) :
  caller st = Idle ->
  let p := position (wrapper st) in
  let st1 := System (locked (wrapper st) (src_obj_size (wrapper st))
                            (buffer (wrapper st)) (bytes_buffered (wrapper st))
                            p None) Idle in
  run (repeat Download n) st1 = Some (st2, os) ->
  step (Call_seek 0 SEEK_END) st = Some (st1, Returned NoneV) /\
  exists st3,
    step (Call_seek p SEEK_SET) st2 = Some (st3, Returned NoneV) /\
    caller st3 = Idle /\
    position (wrapper st3) = p /\
    last_position (wrapper st3) = p /\
    last_data (wrapper st3) = None /\
    buffer (wrapper st3) = buffer (wrapper st2) /\
    bytes_buffered (wrapper st3) = bytes_buffered (wrapper st2) /\
    download_thread (wrapper st3) = download_thread (wrapper st2) /\
    stop_download (wrapper st3) = stop_download (wrapper st2) /\
    forall amt, snd (read amt (wrapper st3))
                = snd (read amt (locked (wrapper st2) p (buffer (wrapper st2))
                                        (bytes_buffered (wrapper st2))
                                        (last_position (wrapper st))
                                        (last_data (wrapper st)))).
Proof.
  intros Hc p st1 R. destruct st as [w c]. simpl in Hc, p. subst c.
  split; [reflexivity|].
  destruct (downloads_frame _ _ _ _ R) as (C2 & F2).
  destruct st2 as [w2 c2]. simpl in C2, F2. subst c2.
  destruct F2 as (P2 & LP2 & LD2 & S2 & _). simpl in P2, LP2, LD2, S2.
  destruct (seek p SEEK_SET w2) as [w3 r] eqn:SK.
  assert (RD : forall w', position w' = p -> buffer w' = buffer w2 ->
                 src_obj_size w' = src_obj_size w2 ->
                 forall amt,
                   snd (read amt w')
                   = snd (read amt (locked w2 p (buffer w2) (bytes_buffered w2)
                                           (last_position w) (last_data w)))).
  { intros w' Pw Bw Sw amt. unfold read, read_wait. simpl.
    rewrite Pw, Bw, Sw.
    destruct ((p =? src_obj_size w2)
              || match amt with Some a => a =? 0 | None => false end);
      [reflexivity|].
    destruct amt as [a|]; [|reflexivity].
    destruct (a >? TRANSFER_BUFFER_SIZE); [reflexivity|].
    destruct (buffer w2) as [|d rest]; [reflexivity|].
    destruct (len d >? a); reflexivity. }
  destruct (seek_cases _ _ _ _ _ SK)
    as [(X & _)|[(X & _)|[(_ & E & -> & ->)
       |[(_ & _ & _ & _ & b & d & LD & _)|[(_ & _ & E & -> & _ & ->)
       |[(_ & _ & N & _)|(X & _)]]]]]];
    try discriminate X; try congruence.
  - exists (System w2 Idle). simpl. rewrite SK. simpl.
    repeat split; auto; try congruence;
      intros amt; apply RD; simpl; congruence.
  - exists (System (locked w2 (last_position w2) (buffer w2) (bytes_buffered w2)
                           (last_position w2) (last_data w2)) Idle).
    simpl. rewrite SK. simpl. repeat split; auto; try congruence;
      intros amt; apply RD; simpl; congruence.
Qed.

(** *** A read and a thread that is gone *)

(** X7.  A read that waits on an empty deque after the download thread has
    exited waits for good: no schedule changes anything or gets it to
    return or raise. *)
Theorem read_waits_for_good (st : system) (amt : Z) (evs : list event)
    (st' : system) (os : list outcome) :
  caller st = Reading amt ->
  download_thread (wrapper st) = Dead ->
  buffer (wrapper st) = [] ->
  run evs st = Some (st', os) ->
  st' = st /\ Forall (fun o => o = Waiting) os /\ Forall (fun e => e = Resume) evs.
Proof.
  intros Hc Hd Hb. revert st' os.
  induction evs as [|e evs IH]; intros st' os R.
  - simpl in R. inversion R; subst. auto.
  - destruct (run_cons_inv _ _ _ _ _ R) as (st1 & o & os1 & S & R1 & ->).
    destruct st as [w c]. simpl in Hc, Hd, Hb. subst c.
    assert (E : e = Resume /\ st1 = System w (Reading amt) /\ o = Waiting).
    { destruct e; simpl in S; try discriminate.
      - unfold download_tick in S. rewrite Hd in S. discriminate.
      - unfold read_wait in S. rewrite Hb in S. simpl in S.
        inversion S; subst. auto. }
    destruct E as (-> & -> & ->).
    destruct (IH _ _ R1) as (-> & F1 & F2). auto.
Qed.

(** *** After a restart *)

(** While no call returns or raises and the consumer stays outside
    [seek], the wrapper is only fed by the download thread. *)
Lemma settled_step (e : event) (st st' : system) (o : outcome) :
  settled st -> step e st = Some (st', o) -> unfinished o -> settled st' ->
  fed (wrapper st) (wrapper st').
Proof.
  intros Se S U Se'. destruct st as [w c]. unfold settled in *. simpl in *.
  destruct e; simpl in S.
  - destruct (download_tick w) as [[w1 a]|] eqn:D; inversion S; subst.
    eapply download_tick_frame; eassumption.
  - destruct c; try contradiction; try discriminate.
    destruct (read amt w) as [w1 r] eqn:RD.
    destruct (read_cases _ _ _ _ RD)
      as [(-> & -> & _)|[(-> & -> & _)|(a & -> & _ & RW)]];
      try (simpl in S; inversion S; subst; simpl in U; contradiction).
    destruct (read_wait_cases _ _ _ _ RW)
      as [(_ & -> & ->)|(d & rest & _ & -> & [(_ & ->)|(_ & ->)])];
      simpl in S; inversion S; subst; simpl in *; try contradiction.
    apply fed_refl.
  - destruct c; try contradiction; try discriminate.
    inversion S; subst. contradiction.
  - destruct c; try contradiction; try discriminate.
    destruct (seek offset whence w) as [w1 [[]|x|]]; simpl in S;
      inversion S; subst; simpl in *; contradiction.
  - destruct c; try contradiction; try discriminate.
    destruct (read_wait amt w) as [w1 r] eqn:RW.
    destruct (read_wait_cases _ _ _ _ RW)
      as [(_ & -> & ->)|(d & rest & _ & -> & [(_ & ->)|(_ & ->)])];
      simpl in S; inversion S; subst; simpl in *; try contradiction.
    apply fed_refl.
Qed.

Lemma unsettled_stays (evs : list event) : forall st st' os,
  ~ settled st -> run evs st = Some (st', os) -> Forall unfinished os ->
  ~ settled st'.
Proof.
  intros st st' os N R F Se'. apply N.
  assert (K : exists offset, seeking offset st).
  { unfold settled, seeking in *. destruct (caller st) as [| |o|o];
      try (exfalso; apply N; exact I); exists o; auto. }
  destruct K as (offset & K).
  pose proof (seeking_until _ _ _ _ _ K R F) as K'.
  unfold settled, seeking in *. destruct K' as [E|E]; rewrite E in Se'; contradiction.
Qed.

Lemma settled_until (evs : list event) : forall st st' os,
  settled st -> run evs st = Some (st', os) -> Forall unfinished os ->
  settled st' -> fed (wrapper st) (wrapper st').
Proof.
  induction evs as [|e evs IH]; intros st st' os Se R F Se'.
  - simpl in R. inversion R; subst. apply fed_refl.
  - destruct (run_cons_inv _ _ _ _ _ R) as (st1 & o & os1 & S & R1 & ->).
    apply Forall_cons_iff in F. destruct F as [Fo Fr].
    assert (Se1 : settled st1).
    { destruct (caller st1) eqn:C1; unfold settled; rewrite C1; try exact I;
        exfalso;
        apply (unsettled_stays evs st1 st' os1); auto;
        unfold settled; rewrite C1; auto. }
    eapply fed_trans; [eapply settled_step; eassumption|].
    eapply IH; eassumption.
Qed.

Lemma upstream_fields (obj : list byte) (o : Z) (w : bridge)
    (pos bb lp : Z) (ld : option chunk) :
  upstream obj o w -> upstream obj o (locked w pos (buffer w) bb lp ld).
Proof. exact (fun H => H). Qed.

(** X8.  After a restart at an offset above 0, [seek(0)] does not restart the
    download.  The restart has left [last_position] at 0, so the seek takes
    the branch of the seek back: it sets the position to 0 and leaves deque,
    thread and stop event alone; and, with a fetch client that delivers the
    object, the next read returns bytes of the object from [offset] on. *)
Theorem seek_zero_after_restart (obj : list byte) (w0 : bridge) (offset : Z)
    (evs : list event) (st4 : system) (os : list outcome) :
  delivers obj GetObjectMedia ->
  0 < offset ->
  run evs (System (seek_restart offset w0) Idle) = Some (st4, os) ->
  Forall unfinished os ->
  caller st4 = Idle ->
  exists st5,
    step (Call_seek 0 SEEK_SET) st4 = Some (st5, Returned NoneV) /\
    caller st5 = Idle /\
    position (wrapper st5) = 0 /\
    buffer (wrapper st5) = buffer (wrapper st4) /\
    bytes_buffered (wrapper st5) = bytes_buffered (wrapper st4) /\
    download_thread (wrapper st5) = download_thread (wrapper st4) /\
    stop_download (wrapper st5) = stop_download (wrapper st4) /\
    forall evs' st6 os' e st7 d,
      run evs' st5 = Some (st6, os') -> Forall unfinished os' ->
      step e st6 = Some (st7, Returned (Bytes d)) ->
      is_prefix d (skipn (Z.to_nat offset) obj).
Proof.
  intros Dl Ho R F Hc.
  set (st3 := System (seek_restart offset w0) Idle) in *.
  assert (St3 : streaming obj offset st3).
  { unfold streaming, upstream. simpl. split; [lia|reflexivity]. }
  pose proof (streaming_until _ _ _ Dl _ _ _ St3 R F) as St4.
  assert (Fd : fed (wrapper st3) (wrapper st4)).
  { eapply settled_until; [|exact R|exact F|].
    - exact I.
    - unfold settled. rewrite Hc. exact I. }
  destruct Fd as (P4 & LP4 & LD4 & _). simpl in P4, LP4, LD4.
  destruct st4 as [w4 c4]. simpl in *. subst c4.
  unfold streaming in St4. simpl in St4.
  set (w5 := locked w4 (last_position w4) (buffer w4) (bytes_buffered w4)
                    (last_position w4) (last_data w4)).
  assert (SK : seek 0 SEEK_SET w4 = (w5, Return tt)).
  { unfold seek.
    change (SEEK_SET =? SEEK_END) with false.
    change (SEEK_SET =? SEEK_SET) with true. cbv iota.
    rewrite P4, LP4, LD4.
    destruct (Z.eqb_spec 0 offset); [lia|]. rewrite Z.eqb_refl. subst w5.
    rewrite LP4, LD4. reflexivity. }
  exists (System w5 Idle). rewrite SK. simpl.
  repeat split; auto.
  intros evs' st6 os' e st7 d R' F' S'.
  eapply streaming_read; [|exact S'].
  eapply streaming_until; [exact Dl| |exact R'|exact F'].
  unfold streaming. simpl. apply upstream_fields. exact St4.
Qed.

(** *** A stop that nobody acknowledged *)





(** *** A whole copy *)

Lemma work_at_while (n sb : Z) :
  work n (AtWhile sb) =
  if sb + DAISY_CHAIN_CHUNK_SIZE <? n
  then (2 + 3 * length (GetObjectMedia sb
                           (Some (sb + DAISY_CHAIN_CHUNK_SIZE - 1)%Z))
        + work n (AtWhile (sb + DAISY_CHAIN_CHUNK_SIZE)%Z))%nat
  else (2 + 3 * length (GetObjectMedia sb None))%nat.
Proof.
  cbn [work]. rewrite (plan_unfold sb n).
  destruct (sb + DAISY_CHAIN_CHUNK_SIZE <? n); unfold list_sum, fetch_cost;
    cbn [map fold_right fst snd]; lia.
Qed.

Lemma pend_cost_fresh (pending : list chunk) :
  pend_cost pending false = (3 * length pending)%nat.
Proof. destruct pending; cbn [pend_cost length]; lia. Qed.

(** One action of a thread that finds room and no stop: one step less,
    two if it put a chunk on the deque (which then is to be read). *)
Lemma work_download (n : Z) (t t' : thread) (a : action) :
  PerformDownload n false true t = Some (t', a) ->
  (work n t' + match a with Append _ => 2 | _ => 1 end = work n t)%nat.
Proof.
  destruct t as [sb|k pending adm|]; [| |discriminate].
  - intros H. rewrite (work_at_while n sb). cbn [PerformDownload] in H.
    destruct (sb + DAISY_CHAIN_CHUNK_SIZE <? n); inversion H; subst;
      cbn [work]; rewrite pend_cost_fresh; lia.
  - destruct pending as [|d rest].
    + destruct k as [sb|]; destruct adm; cbn [PerformDownload];
        intros H; inversion H; subst; cbn [work pend_cost]; lia.
    + destruct k as [sb|]; destruct adm; cbn [PerformDownload];
        intros H; inversion H; subst; cbn [work]; rewrite ?pend_cost_fresh;
        cbn [pend_cost length]; lia.
Qed.

Lemma sized_download (w w' : bridge) (a : action) :
  pieces_fit -> download_tick w = Some (w', a) -> sized w -> sized w'.
Proof.
  intros PF D (B & T). unfold download_tick in D.
  destruct w as [pos buf bb mx lp ld sz th stop]. unfold sized in *.
  simpl in *.
  destruct th as [sb|k pending adm|]; simpl in D; [| |discriminate].
  - destruct (sb + DAISY_CHAIN_CHUNK_SIZE <? sz); inversion D; subst; simpl;
      (split; [exact B|]); apply Forall_forall; intros d Hd; eapply PF; exact Hd.
  - destruct pending as [|d rest].
    + destruct k as [sb|]; [destruct stop|]; destruct adm;
        inversion D; subst; simpl; auto.
    + inversion T as [|? ? Hd Hrest]; subst.
      destruct adm; [|destruct (bb <? mx)]; destruct k; inversion D; subst;
        simpl; auto; split; auto; apply Forall_app; split; auto.
Qed.

(** A non-empty chunk first on the deque: the position is not yet at the
    end of the object. *)
Lemma intact_not_at_end (obj acc : list byte) (w : bridge) (d : chunk)
    (rest : list chunk) :
  intact obj acc w -> buffer w = d :: rest -> d <> [] ->
  position w < len obj.
Proof.
  intros (P0 & PL & AO & U & _) B N.
  destruct (upstream_head _ _ _ _ _ U B) as (tail & E).
  apply (f_equal (@length byte)) in AO. apply (f_equal (@length byte)) in E.
  rewrite length_app in AO, E. unfold len in *.
  destruct d; [contradiction|]. simpl length in E. lia.
Qed.

(** The next step of the copy: read if there is a chunk, else let the
    thread run. *)
Lemma copying_step (obj acc : list byte) (st : system) (m : nat) :
  delivers obj GetObjectMedia -> pieces_fit -> 0 < TRANSFER_BUFFER_SIZE ->
  copying obj acc st -> steps_left st = Datatypes.S m ->
  exists e st1 o,
    step e st = Some (st1, o) /\ seek_free e /\ quiet o /\
    copying obj (acc ++ returned [o]) st1 /\ steps_left st1 = m.
Proof.
  intros Dl PF HT (Hc & Hs & Ct & IN & Sd) SL.
  destruct st as [w c]. simpl in Hc, Hs, IN, Sd. subst c.
  assert (Un : undisturbed (System w Idle)) by (split; [exact Hs|exact I]).
  destruct (buffer w) as [|d rest] eqn:B.
  - (* nothing to read: the thread runs *)
    pose proof Ct as Ct0.
    destruct Ct as (Sz & Mx & BB). simpl in Sz, Mx, BB.
    rewrite B in BB. simpl in BB.
    assert (Room : (bytes_buffered w <? max_buffer_size w) = true).
    { apply Z.ltb_lt. rewrite BB, Mx. reflexivity. }
    unfold steps_left in SL. simpl in SL. rewrite B in SL. simpl in SL.
    destruct (PerformDownload (src_obj_size w) false true (download_thread w))
      as [[t a]|] eqn:P.
    2:{ destruct (download_thread w) as [sb|[sb|] [|x r] [|]|];
          simpl in P; try discriminate;
          try (destruct (sb + DAISY_CHAIN_CHUNK_SIZE <? src_obj_size w);
               discriminate);
          simpl in SL; discriminate. }
    pose proof (work_download _ _ _ _ P) as WD.
    assert (D : download_tick w
                = Some (set_thread (perform a w) t
                          (stop_download (perform a w)), a)).
    { unfold download_tick. rewrite Hs, Room, P. reflexivity. }
    set (w1 := set_thread (perform a w) t (stop_download (perform a w))) in *.
    assert (Stp : step Download (System w Idle) = Some (System w1 Idle, Ran a)).
    { simpl. rewrite D. reflexivity. }
    exists Download, (System w1 Idle), (Ran a).
    split; [exact Stp|]. split; [exact I|]. split; [exact I|].
    destruct (undisturbed_step Download _ _ _ Un I Stp) as ((Hs1 & _) & _ & Sz1 & _).
    destruct (counted_step (len obj) _ _ _ _ Ct0 Stp) as (Ct1 & _).
    split.
    + split; [reflexivity|]. split; [exact Hs1|]. split; [exact Ct1|].
      split.
      * apply (intact_step obj acc Download (System w Idle) _ (Ran a) Dl Un I I Stp).
        exact IN.
      * eapply sized_download; eassumption.
    + unfold steps_left. simpl in Sz1 |- *. rewrite Sz1.
      subst w1. simpl.
      destruct a; simpl; rewrite ?B, ?length_app; simpl; lia.
  - (* a chunk to read *)
    destruct Sd as (Fb & Ft). rewrite B in Fb. inversion Fb as [|? ? (Nd & Ld) Frest]; subst.
    pose proof (intact_not_at_end _ _ _ _ _ IN B Nd) as NE.
    pose proof Ct as Ct0.
    destruct Ct as (Sz & Mx & BB). simpl in Sz, Mx, BB.
    set (w1 := locked w (position w + len d) rest (bytes_buffered w - len d)
                      (position w) (Some d)).
    assert (RD : read (Some TRANSFER_BUFFER_SIZE) w = (w1, Return d)).
    { rewrite read_resumed by (unfold read_entry; rewrite Sz; repeat split; lia).
      unfold read_wait. rewrite B. fold w1.
      destruct (Z.gtb_spec (len d) TRANSFER_BUFFER_SIZE); [lia|reflexivity]. }
    assert (Stp : step (Call_read (Some TRANSFER_BUFFER_SIZE)) (System w Idle)
                = Some (System w1 Idle, Returned (Bytes d))).
    { simpl. rewrite RD. reflexivity. }
    exists (Call_read (Some TRANSFER_BUFFER_SIZE)), (System w1 Idle),
           (Returned (Bytes d)).
    split; [exact Stp|]. split; [exact I|]. split; [exact I|].
    destruct (counted_step (len obj) _ _ _ _ Ct0 Stp) as (Ct1 & _).
    split.
    + split; [reflexivity|]. split; [exact Hs|]. split; [exact Ct1|].
      split.
      * apply (intact_step obj acc (Call_read (Some TRANSFER_BUFFER_SIZE)) (System w Idle) _ (Returned (Bytes d)) Dl Un I I Stp). exact IN.
      * split; [exact Frest|exact Ft].
    + unfold steps_left in *. simpl in *. rewrite B in SL. simpl in SL. lia.
Qed.

Lemma copying_run (obj : list byte) :
  delivers obj GetObjectMedia -> pieces_fit -> 0 < TRANSFER_BUFFER_SIZE ->
  forall m st acc,
    copying obj acc st -> steps_left st = m ->
    exists evs st' os,
      run evs st = Some (st', os) /\ length evs = m /\
      Forall seek_free evs /\ Forall quiet os /\
      copying obj (acc ++ returned os) st' /\ steps_left st' = O.
Proof.
  intros Dl PF HT. induction m as [|m IH]; intros st acc C SL.
  - exists [], st, []. simpl. rewrite app_nil_r.
    split; [reflexivity|]. split; [reflexivity|].
    split; [constructor|]. split; [constructor|]. split; assumption.
  - destruct (copying_step obj acc st m Dl PF HT C SL)
      as (e & st1 & o & Stp & Fe & Qo & C1 & SL1).
    destruct (IH st1 _ C1 SL1) as (evs & st' & os & R & Ln & F & Q & C' & SL').
    assert (E : acc ++ returned (o :: os) = (acc ++ returned [o]) ++ returned os).
    { change (o :: os) with ([o] ++ os). rewrite returned_app, app_assoc.
      reflexivity. }
    exists (e :: evs), st', (o :: os). rewrite E.
    split; [simpl; rewrite Stp, R; reflexivity|].
    split; [simpl; lia|].
    split; [constructor; assumption|]. split; [constructor; assumption|].
    split; [exact C'|exact SL'].
Qed.

(** X10.  With a fetch client that delivers the object in non-empty pieces of at
    most [TRANSFER_BUFFER_SIZE] bytes, the copy can be done: there is a
    schedule of the download thread and of reads of [TRANSFER_BUFFER_SIZE]
    bytes, without any seek, in which no read raises, the thread runs to its
    end, the deque ends empty, and the reads have returned the whole object,
    the position standing at its end. *)
Theorem copy_completes (obj : list byte) :
  delivers obj GetObjectMedia -> pieces_fit -> 0 < TRANSFER_BUFFER_SIZE ->
  exists evs st os,
    run evs (start (len obj)) = Some (st, os) /\
    Forall seek_free evs /\ Forall quiet os /\
    caller st = Idle /\
    download_thread (wrapper st) = Dead /\
    buffer (wrapper st) = [] /\
    returned os = obj /\
    position (wrapper st) = len obj.
Proof.
  intros Dl PF HT.
  assert (C0 : copying obj [] (start (len obj))).
  { unfold copying, counted, intact, upstream, sized. simpl.
    repeat split; auto; try lia; try discriminate. }
  destruct (copying_run obj Dl PF HT _ _ _ C0 eq_refl)
    as (evs & st & os & R & _ & F & Q & (Hc & _ & _ & IN & _) & SL).
  simpl in IN.
  assert (E : buffer (wrapper st) = [] /\ download_thread (wrapper st) = Dead).
  { unfold steps_left in SL.
    destruct (buffer (wrapper st)); [|simpl in SL; lia]. split; [reflexivity|].
    simpl in SL.
    destruct (download_thread (wrapper st)) as [sb|[sb|] pending adm|];
      try reflexivity; exfalso.
    - rewrite work_at_while in SL.
      destruct (sb + DAISY_CHAIN_CHUNK_SIZE <? src_obj_size (wrapper st)); lia.
    - cbn [work] in SL. lia.
    - cbn [work] in SL. lia. }
  destruct E as (Eb & Ed).
  destruct IN as (P0 & PL & AO & _ & DE).
  specialize (DE Ed). rewrite Eb in DE. simpl in DE.
  rewrite <- DE, app_nil_r in AO.
  exists evs, st, os. repeat split; auto. rewrite PL, AO. reflexivity.
Qed.
End DaisyChain.

(** ** The example client *)

Lemma pieces_concat (piece : nat) : forall fuel data,
  (0 < piece)%nat -> (length data <= fuel)%nat ->
  concat (pieces fuel piece data) = data.
Proof.
  induction fuel as [|fuel IH]; intros data Hp Hl.
  - destruct data; [reflexivity|simpl in Hl; lia].
  - destruct data as [|b data]; [reflexivity|].
    cbn [pieces concat]. rewrite IH.
    + apply firstn_skipn.
    + exact Hp.
    + rewrite length_skipn. cbn [length] in *. lia.
Qed.

Lemma pieces_lengths (piece : nat) : forall fuel data d,
  In d (pieces fuel piece data) -> (length d <= piece)%nat.
Proof.
  induction fuel as [|fuel IH]; intros data d H; [destruct H|].
  destruct data as [|b data]; [destruct H|].
  cbn [pieces] in H. destruct H as [<- | H].
  - rewrite length_firstn. lia.
  - eapply IH. exact H.
Qed.

Lemma serve_delivers (obj : list byte) (piece : nat) :
  (0 < piece)%nat -> delivers obj (serve obj piece).
Proof.
  intros Hp start_byte end_byte _. unfold serve.
  apply pieces_concat; [exact Hp|lia].
Qed.

Lemma serve_pieces_within (obj : list byte) (piece : nat) :
  pieces_within (Z.of_nat piece) (serve obj piece).
Proof.
  intros start_byte end_byte d H. unfold serve in H.
  apply pieces_lengths in H. unfold len. lia.
Qed.

(** ** The theorems at work *)



(** On a fresh wrapper for five bytes: no amount and an amount above
    [TRANSFER_BUFFER_SIZE] raise at once. *)
Lemma read_amt_spec_witness :
  read 8192 None (init 5) = (init 5, Raise BadRequestException) /\
  read 8192 (Some 9000) (init 5) = (init 5, Raise BadRequestException).
Proof.
  destruct (read_amt_spec 8192 (init 5)) as (_ & _ & H).
  destruct (H ltac:(discriminate)) as (A & B & _).
  split; [exact A|]. apply B; lia.
Defined.

(** An object of 300000000 bytes: three fetches in the plan, two of them
    ranged.  Left alone the thread makes the three.  With the stop event
    set all along, or set just when the first ranged fetch has returned, it
    makes the first fetch, writes its two pieces, acknowledges the stop and
    exits, whatever the environment shows afterwards. *)
Lemma PerformDownload_fetches_witness :
  let n := 300000000 in
  let first := (0, Some (0 + DAISY_CHAIN_CHUNK_SIZE - 1)) in
  let fetched := [Fetch 0 (Some (0 + DAISY_CHAIN_CHUNK_SIZE - 1));
                  Admit; Append []; Admit; Append ab] in
  length (plan 0 n) = 3%nat /\
  requests (snd (PerformDownload_run hiccup n
                   (repeat (false, true) 18) (AtWhile 0)))
    = plan 0 n /\
  PerformDownload_run hiccup n (repeat (false, true) 5) (AtWhile 0)
    = (InMedia (Ranged 0) [] false, fetched) /\
  PerformDownload_run hiccup n
    (repeat (false, true) 5 ++ (true, true) :: repeat (false, true) 12)
    (AtWhile 0)
    = (Dead, fetched ++ [StopAck]) /\
  requests (snd (PerformDownload_run hiccup n
                   (repeat (true, true) 9) (AtWhile 0)))
    = [first].
Proof.
  intros n first fetched.
  destruct (PerformDownload_fetches hiccup 0 n)
    as (_ & _ & Whole & _ & _ & _ & _ & _ & Test & _ & Stopped).
  assert (R5 : PerformDownload_run hiccup n (repeat (false, true) 5) (AtWhile 0)
               = (InMedia (Ranged 0) [] false, fetched))
    by (vm_compute; reflexivity).
  split; [vm_compute; reflexivity|]. split; [|split; [exact R5|split]].
  - apply (Whole (repeat (false, true) 18)).
    + vm_compute. reflexivity.
    + intros X. vm_compute in X.
      repeat (destruct X as [X|X]; [discriminate X|]). exact X.
  - exact (proj1 (Test _ true (repeat (false, true) 12) _ _ _ R5)).
  - destruct (Stopped ltac:(vm_compute; reflexivity)) as (Only & _).
    destruct (Only (repeat (true, true) 9) Dead
                (snd (PerformDownload_run hiccup n
                        (repeat (true, true) 9) (AtWhile 0)))
                ltac:(repeat constructor)
                ltac:(vm_compute; reflexivity)) as (_ & _ & D).
    exact (proj1 (D eq_refl)).
Defined.

(** Pieces of two bytes: the counter stays at or below capacity plus 3. *)
Lemma bytes_buffered_bound_witness :
  let evs := [Download; Download; Download; Call_read (Some 8192);
              Download; Download; Call_seek 0 SEEK_SET] in
  let st := reached 8192 two_at_a_time evs (start 5) in
  bytes_buffered (wrapper st) = 4 /\
  bytes_buffered (wrapper st) <= max_buffer_size (wrapper st) - 1 + 2 * 2.
Proof.
  intros evs st. split; [vm_compute; reflexivity|].
  apply (bytes_buffered_bound 8192 two_at_a_time 2 5 evs st
           (observed 8192 two_at_a_time evs (start 5))).
  - lia.
  - exact (serve_pieces_within abcde 2).
  - vm_compute. reflexivity.
Defined.

(** A restart at 3, inside the object, and a read after it. *)
Lemma position_in_range_witness :
  let evs := Call_seek 3 SEEK_SET :: repeat Download 8
             ++ Resume :: repeat Download 3 ++ [Call_read (Some 8192)] in
  let st := reached 8192 two_at_a_time evs (start 5) in
  position (wrapper st) = 5 /\
  0 <= position (wrapper st) <= src_obj_size (wrapper st).
Proof.
  intros evs st. split; [vm_compute; reflexivity|].
  apply (position_in_range 8192 two_at_a_time abcde evs st
           (observed 8192 two_at_a_time evs (start 5))).
  - apply serve_delivers. lia.
  - unfold evs. constructor; [intros _; vm_compute; split; discriminate|].
    cbn [repeat app]. repeat (constructor; [exact I|]). constructor.
  - vm_compute. reflexivity.
Defined.

(** [last_data] after a read and a [tell]: the read is found in the
    schedule.  And step by step: the read that pops [ab] leaves [ab]; an
    action of the download thread, a [tell], a read that finds the deque
    empty and a further turn of its wait loop leave [last_data] as it
    was. *)
Lemma last_data_history_witness :
  let evs := [Download; Download; Download; Call_read (Some 8192); Call_tell] in
  let st0 := reached 8192 two_at_a_time (repeat Download 3) (start 5) in
  let st1 := reached 8192 two_at_a_time [Call_read (Some 8192)] st0 in
  let st2 := reached 8192 two_at_a_time [Download] st1 in
  let st3 := reached 8192 two_at_a_time [Call_tell] st2 in
  let st4 := reached 8192 two_at_a_time [Call_read (Some 8192)] st3 in
  let st5 := reached 8192 two_at_a_time [Resume] st4 in
  (exists evs1 e evs2 st1 st2 o os1 os2,
     evs = evs1 ++ e :: evs2 /\
     observed 8192 two_at_a_time evs (start 5) = os1 ++ o :: os2 /\
     run 8192 two_at_a_time evs1 (start 5) = Some (st1, os1) /\
     popped_by 8192 two_at_a_time e st1 st2 o ab /\
     run 8192 two_at_a_time evs2 st2
       = Some (reached 8192 two_at_a_time evs (start 5), os2) /\
     none_clears evs2 os2) /\
  last_data (wrapper st1) = Some ab /\
  last_data (wrapper st2) = last_data (wrapper st1) /\
  last_data (wrapper st3) = last_data (wrapper st2) /\
  last_data (wrapper st4) = last_data (wrapper st3) /\
  last_data (wrapper st5) = last_data (wrapper st4).
Proof.
  intros evs st0 st1 st2 st3 st4 st5.
  destruct (last_data_history 8192 two_at_a_time)
    as (Found & _ & _ & Pop & _ & Thread & Tell & Read).
  split; [|split; [|split; [|split; [|split]]]].
  - apply (Found 5 evs
             (reached 8192 two_at_a_time evs (start 5))
             (observed 8192 two_at_a_time evs (start 5)) ab).
    + vm_compute. reflexivity.
    + vm_compute. reflexivity.
  - apply (Pop (Call_read (Some 8192)) st0 st1 (Returned (Bytes ab)) ab).
    split; [vm_compute; reflexivity|].
    split; [right; exists (Some 8192); reflexivity|].
    split; [vm_compute; reflexivity|left; reflexivity].
  - apply (Thread st1 st2 (Ran Admit)). vm_compute. reflexivity.
  - apply (Tell st2 st3 (Returned (Int 2))). vm_compute. reflexivity.
  - apply (Read (Call_read (Some 8192)) st3 st4 Waiting).
    + vm_compute. reflexivity.
    + left. exists (Some 8192). reflexivity.
    + vm_compute. reflexivity.
  - apply (Read Resume st4 st5 Waiting).
    + vm_compute. reflexivity.
    + right. split; [reflexivity|]. exists 8192. vm_compute. reflexivity.
    + vm_compute. reflexivity.
Defined.

(** Seek to the end of five bytes; a seek to 7 from the end. *)
Lemma seek_end_spec_witness :
  position (wrapper (reached 8192 two_at_a_time [Call_seek 0 SEEK_END] (start 5)))
    = 5 /\
  seek 7 SEEK_END (init 5) = (init 5, Raise BadRequestException).
Proof.
  destruct (seek_end_spec 8192 two_at_a_time (start 5) eq_refl)
    as (_ & _ & _ & _ & _ & _ & _ & _ & _ & _ & _ & H).
  split; [vm_compute; reflexivity|].
  apply (H 7). discriminate.
Defined.

(** [read(1)] with [ab] first on the deque. *)
Lemma read_oversized_not_atomic_witness :
  let w := wrapper (reached 8192 two_at_a_time (repeat Download 3) (start 5)) in
  read 8192 (Some 1) w
  = (locked w 2 [] 0 0 (Some ab), Raise BadRequestException).
Proof.
  intros w.
  destruct (read_oversized_not_atomic 8192 two_at_a_time w 1 ab []
              ltac:(discriminate) ltac:(discriminate) ltac:(discriminate)
              ltac:(vm_compute; reflexivity) ltac:(reflexivity))
    as (H & _).
  exact H.
Defined.

(** A seek to 7 from the end, and a seek with [os.SEEK_CUR]. *)
Lemma seek_invalid_unchanged_witness :
  step 8192 two_at_a_time (Call_seek 7 SEEK_END) (start 5)
    = Some (start 5, Raised BadRequestException) /\
  step 8192 two_at_a_time (Call_seek 7 1) (start 5)
    = Some (start 5, Raised IOError).
Proof.
  destruct (seek_invalid_unchanged 8192 two_at_a_time (start 5) 7 1 eq_refl)
    as (A & B).
  split.
  - apply A. discriminate.
  - apply B; discriminate.
Defined.

(** ** Where the code does otherwise *)


(** C3, as stated, fails: [read(0)] returns the empty string, and so does
    a [read] without an amount at the end of the object; a negative amount
    on an empty deque waits. *)
Lemma read_zero_returns_empty :
  read 8192 (Some 0) (init 5) = (init 5, Return []) /\
  read 8192 None (init 0) = (init 0, Return []) /\
  read 8192 (Some (-1)) (init 5) = (init 5, Yield).
Proof. repeat split. Qed.

(** C5, as stated, fails.  Pieces of 8191 bytes: 129 of them are let in
    (the 129th at 128 * 8191, which is below capacity), one is read, one more
    is let in, and the seek back to 0 returns the one read to the deque:
    130 * 8191 bytes, above capacity plus one piece. *)
Lemma bytes_buffered_two_chunks_over :
  let st := reached 8192 big_pieces overfill (start big_size) in
  length (observed 8192 big_pieces overfill (start big_size))
    = length overfill /\
  last (observed 8192 big_pieces overfill (start big_size)) Waiting
    = Returned NoneV /\
  forallb (fun c => len c =? 8191) (buffer (wrapper st)) = true /\
  max_buffer_size (wrapper st) = 1048576 /\
  bytes_buffered (wrapper st) = 1064830 /\
  bytes_buffered (wrapper st) > max_buffer_size (wrapper st) + 8191.
Proof.
  cbv zeta.
  split; [vm_compute; reflexivity|]. split; [vm_compute; reflexivity|].
  split; [vm_compute; reflexivity|]. split; [vm_compute; reflexivity|].
  split; vm_compute; reflexivity.
Qed.

(** C6, as stated, fails: [seek(9)] on an object of five bytes returns
    without raising and leaves the position at 9. *)
Lemma seek_past_the_end :
  let evs := Call_seek 9 SEEK_SET :: repeat Download 8 ++ [Resume; Call_tell] in
  let st := reached 8192 two_at_a_time evs (start 5) in
  observed 8192 two_at_a_time evs (start 5)
    = [Waiting; Ran (Fetch 0 None); Ran Admit; Ran (Append ab); Ran Admit;
       Ran (Append cd); Ran Admit; Ran (Append e_); Ran Finish;
       Returned NoneV; Returned (Int 9)] /\
  position (wrapper st) = 9 /\
  src_obj_size (wrapper st) = 5 /\
  ~ (0 <= position (wrapper st) <= src_obj_size (wrapper st)).
Proof.
  cbv zeta. repeat split; try (vm_compute; reflexivity).
  vm_compute. intros [_ H]. apply H. reflexivity.
Qed.

(** C7, as stated, fails: after a read of [ab] and a seek back to 0, the
    last call is a seek and [last_data] still holds [ab]. *)
Lemma seek_back_keeps_last_data :
  let evs := repeat Download 3
             ++ [Call_read (Some 8192); Call_seek 0 SEEK_SET] in
  let st := reached 8192 two_at_a_time evs (start 5) in
  observed 8192 two_at_a_time evs (start 5)
    = [Ran (Fetch 0 None); Ran Admit; Ran (Append ab);
       Returned (Bytes ab); Returned NoneV] /\
  last_data (wrapper st) = Some ab /\
  last_data (wrapper st) <> None.
Proof.
  cbv zeta. repeat split; try (vm_compute; reflexivity).
  vm_compute. discriminate.
Qed.

(** ** A copy of 250 bytes

    Chunks of 100, 100 and 50 bytes: three reads of 100 return them and
    [tell] gives 100, 200, 250; a fourth read returns nothing; [seek(200)]
    brings the last chunk back; [seek(30)] restarts the download, and the
    next read returns the 100 bytes from offset 30. *)
Example copy_of_250_bytes :
  let sizes := map (fun o => match o with
                             | Returned (Bytes d) => Some (len d)
                             | Returned (Int n) => Some n
                             | _ => None
                             end) in
  let evs1 := repeat Download 8
              ++ [Call_read (Some 100); Call_tell; Call_read (Some 100);
                  Call_tell; Call_read (Some 100); Call_tell;
                  Call_read (Some 100)] in
  let evs2 := [Call_seek 200 SEEK_SET; Call_read (Some 100); Call_tell] in
  let evs3 := [Call_seek 30 SEEK_SET; Resume; Download; Download; Download;
               Call_read (Some 100)] in
  let st1 := reached 100 hundreds evs1 (start 250) in
  let st2 := reached 100 hundreds evs2 st1 in
  let st3 := reached 100 hundreds evs3 st2 in
  skipn 8 (sizes (observed 100 hundreds evs1 (start 250)))
    = [Some 100; Some 100; Some 100; Some 200; Some 50; Some 250; Some 0] /\
  observed 100 hundreds evs2 st1
    = [Returned NoneV; Returned (Bytes (repeat x02 50)); Returned (Int 250)] /\
  observed 100 hundreds evs3 st2
    = [Waiting; Returned NoneV; Ran (Fetch 30 None); Ran Admit;
       Ran (Append (repeat x00 70 ++ repeat x01 30));
       Returned (Bytes (repeat x00 70 ++ repeat x01 30))] /\
  position (wrapper st3) = 130.
Proof.
  cbv zeta. repeat split; vm_compute; reflexivity.
Qed.

(** ** The further theorems at work *)

Lemma pieces_nonempty (piece : nat) : forall fuel data d,
  (0 < piece)%nat -> In d (pieces fuel piece data) -> d <> [].
Proof.
  induction fuel as [|fuel IH]; intros data d Hp H; [destruct H|].
  destruct data as [|b data]; [destruct H|].
  cbn [pieces] in H. destruct H as [<- | H].
  - destruct piece; [lia|]. discriminate.
  - eapply IH; eassumption.
Qed.

Lemma serve_pieces_fit (TBS : Z) (obj : list byte) (piece : nat) :
  (0 < piece)%nat -> Z.of_nat piece <= TBS ->
  pieces_fit TBS (serve obj piece).
Proof.
  intros Hp Hl start_byte end_byte d H. split.
  - unfold serve in H. eapply pieces_nonempty; eassumption.
  - pose proof (serve_pieces_within obj piece _ _ _ H). lia.
Qed.

(** Two pieces written, one read, a seek back that puts the piece on the
    deque again: four bytes on the deque and four on the counter. *)
Lemma byte_counter_counts_witness :
  let evs := [Download; Download; Download; Call_read (Some 8192);
              Download; Download; Call_seek 0 SEEK_SET] in
  let st := reached 8192 two_at_a_time evs (start 5) in
  buffer (wrapper st) = [ab; cd] /\
  bytes_buffered (wrapper st) = total (buffer (wrapper st)) /\
  src_obj_size (wrapper st) = 5.
Proof.
  intros evs st.
  destruct (byte_counter_counts 8192 two_at_a_time 5 evs st
              (observed 8192 two_at_a_time evs (start 5))
              ltac:(vm_compute; reflexivity)) as (B & _ & _ & Sz & _).
  split; [vm_compute; reflexivity|]. split; [exact B|exact Sz].
Defined.

(** Five bytes, a read in between the thread's actions: the thread asks for
    the one open-ended range of its plan and exits. *)
Lemma downloads_follow_plan_witness :
  let evs := [Call_read (Some 8192); Download; Download; Download; Resume;
              Download; Download; Download; Download; Download] in
  let st := reached 8192 two_at_a_time evs (start 5) in
  download_thread (wrapper st) = Dead /\
  requests (actions (observed 8192 two_at_a_time evs (start 5))) = plan 0 5 /\
  plan 0 5 = [(0, None)].
Proof.
  intros evs st.
  destruct (downloads_follow_plan 8192 two_at_a_time 5 evs st
              (observed 8192 two_at_a_time evs (start 5))
              ltac:(repeat constructor)
              ltac:(vm_compute; reflexivity)) as (_ & _ & _ & D).
  assert (E : download_thread (wrapper st) = Dead) by (vm_compute; reflexivity).
  split; [exact E|]. split; [exact (D E)|]. vm_compute. reflexivity.
Defined.

(** The five bytes copied: the thread run to its end and three reads. *)
Lemma reads_in_order_witness :
  let evs := repeat Download 8
             ++ [Call_read (Some 8192); Call_read (Some 8192);
                 Call_read (Some 8192)] in
  returned (observed 8192 two_at_a_time evs (start 5)) = abcde /\
  position (wrapper (reached 8192 two_at_a_time evs (start 5))) = 5.
Proof.
  intros evs.
  destruct (reads_in_order 8192 two_at_a_time abcde 5 evs
              (reached 8192 two_at_a_time evs (start 5))
              (observed 8192 two_at_a_time evs (start 5))
              (serve_delivers abcde 2 ltac:(lia))
              ltac:(repeat constructor)
              ltac:(vm_compute; repeat constructor)
              ltac:(vm_compute; reflexivity)) as (_ & P & D).
  split.
  - apply D; vm_compute; reflexivity.
  - rewrite P. vm_compute. reflexivity.
Defined.

(** The chunk a read returns is the one the thread appended before. *)
Lemma reads_return_written_chunks_witness :
  let evs := [Download; Download; Download; Call_read (Some 8192)] in
  observed 8192 two_at_a_time evs (start 5)
    = [Ran (Fetch 0 None); Ran Admit; Ran (Append ab)]
      ++ [Returned (Bytes ab)] /\
  In (Append ab) (actions [Ran (Fetch 0 None); Ran Admit; Ran (Append ab)]).
Proof.
  intros evs. split; [vm_compute; reflexivity|].
  apply (reads_return_written_chunks 8192 two_at_a_time 5 evs
           (reached 8192 two_at_a_time evs (start 5))
           (observed 8192 two_at_a_time evs (start 5))
           [Ran (Fetch 0 None); Ran Admit; Ran (Append ab)] [] ab).
  - vm_compute. reflexivity.
  - vm_compute. reflexivity.
  - discriminate.
Defined.

(** Pieces of two bytes, a seek to the end among the events: the counter
    stays at or below capacity plus 1. *)
Lemma write_soft_bound_witness :
  let evs := [Download; Download; Download; Call_read (Some 8192);
              Call_seek 0 SEEK_END; Download; Download] in
  let st := reached 8192 two_at_a_time evs (start 5) in
  bytes_buffered (wrapper st) = 2 /\
  bytes_buffered (wrapper st) <= max_buffer_size (wrapper st) - 1 + 2.
Proof.
  intros evs st. split; [vm_compute; reflexivity|].
  apply (write_soft_bound 8192 two_at_a_time 2 5 evs st
           (observed 8192 two_at_a_time evs (start 5))).
  - lia.
  - exact (serve_pieces_within abcde 2).
  - vm_compute. repeat split. intros (H & _). discriminate H.
  - vm_compute. reflexivity.
Defined.

(** After a read of [ab]: to the end and back to 2, the thread writing [cd]
    in between. *)
Lemma seek_end_and_back_witness :
  let st := reached 8192 two_at_a_time
              [Download; Download; Download; Call_read (Some 8192)]
              (start 5) in
  let st1 := reached 8192 two_at_a_time [Call_seek 0 SEEK_END] st in
  let st2 := reached 8192 two_at_a_time [Download; Download] st1 in
  step 8192 two_at_a_time (Call_seek 0 SEEK_END) st
    = Some (st1, Returned NoneV) /\
  position (wrapper st1) = 5 /\
  exists st3,
    step 8192 two_at_a_time (Call_seek 2 SEEK_SET) st2
      = Some (st3, Returned NoneV) /\
    position (wrapper st3) = 2 /\
    buffer (wrapper st3) = [cd].
Proof.
  intros st st1 st2.
  destruct (seek_end_and_back 8192 two_at_a_time st 2 st2
              (observed 8192 two_at_a_time [Download; Download] st1)
              ltac:(vm_compute; reflexivity)
              ltac:(vm_compute; reflexivity))
    as (S1 & st3 & S3 & _ & P & _ & _ & B & _).
  split; [vm_compute; reflexivity|]. split; [vm_compute; reflexivity|].
  exists st3. split; [exact S3|]. split; [exact P|].
  rewrite B. vm_compute. reflexivity.
Defined.

(** An object announced with 7 bytes that has 5: once the thread has exited
    and the 5 bytes are read, the next read waits whatever is resumed. *)
Lemma read_waits_for_good_witness :
  let st := reached 8192 two_at_a_time
              (repeat Download 8
               ++ [Call_read (Some 8192); Call_read (Some 8192);
                   Call_read (Some 8192); Call_read (Some 8192)])
              (start 7) in
  position (wrapper st) = 5 /\
  caller st = Reading 8192 /\
  reached 8192 two_at_a_time [Resume; Resume; Resume] st = st /\
  Forall (fun o => o = Waiting)
    (observed 8192 two_at_a_time [Resume; Resume; Resume] st).
Proof.
  intros st.
  destruct (read_waits_for_good 8192 two_at_a_time st 8192
              [Resume; Resume; Resume]
              (reached 8192 two_at_a_time [Resume; Resume; Resume] st)
              (observed 8192 two_at_a_time [Resume; Resume; Resume] st)
              ltac:(vm_compute; reflexivity)
              ltac:(vm_compute; reflexivity)
              ltac:(vm_compute; reflexivity)
              ltac:(vm_compute; reflexivity)) as (E & W & _).
  split; [vm_compute; reflexivity|]. split; [vm_compute; reflexivity|].
  split; [exact E|exact W].
Defined.

(** The thread restarted at 3 has written [de]; [seek(0)] leaves the deque
    as it is, and the read at position 0 returns [de]. *)
Lemma seek_zero_after_restart_witness :
  let st4 := reached 8192 two_at_a_time (repeat Download 3)
               (System (seek_restart 3 (init 5)) Idle) in
  let st5 := reached 8192 two_at_a_time [Call_seek 0 SEEK_SET] st4 in
  step 8192 two_at_a_time (Call_seek 0 SEEK_SET) st4
    = Some (st5, Returned NoneV) /\
  position (wrapper st5) = 0 /\
  step 8192 two_at_a_time (Call_read (Some 8192)) st5
    = Some (reached 8192 two_at_a_time [Call_read (Some 8192)] st5,
            Returned (Bytes [x64; x65])) /\
  is_prefix [x64; x65] (skipn (Z.to_nat 3) abcde).
Proof.
  intros st4 st5.
  destruct (seek_zero_after_restart 8192 two_at_a_time abcde (init 5) 3
              (repeat Download 3) st4
              (observed 8192 two_at_a_time (repeat Download 3)
                 (System (seek_restart 3 (init 5)) Idle))
              (serve_delivers abcde 2 ltac:(lia))
              ltac:(lia)
              ltac:(vm_compute; reflexivity)
              ltac:(vm_compute; repeat constructor)
              ltac:(vm_compute; reflexivity))
    as (st5' & S5 & _ & P & _ & _ & _ & _ & Rd).
  assert (S5c : step 8192 two_at_a_time (Call_seek 0 SEEK_SET) st4
                = Some (st5, Returned NoneV)) by (vm_compute; reflexivity).
  rewrite S5c in S5. injection S5 as <-.
  assert (S6 : step 8192 two_at_a_time (Call_read (Some 8192)) st5
               = Some (reached 8192 two_at_a_time [Call_read (Some 8192)] st5,
                       Returned (Bytes [x64; x65])))
    by (vm_compute; reflexivity).
  split; [exact S5c|]. split; [exact P|]. split; [exact S6|].
  apply (Rd [] st5 [] _ _ _ eq_refl ltac:(constructor) S6).
Defined.


(** The five bytes, served two at a time, can be copied. *)
Lemma copy_completes_witness :
  exists evs st os,
    run 8192 two_at_a_time evs (start 5) = Some (st, os) /\
    Forall seek_free evs /\
    download_thread (wrapper st) = Dead /\
    returned os = abcde /\
    position (wrapper st) = 5.
Proof.
  destruct (copy_completes 8192 two_at_a_time abcde
              (serve_delivers abcde 2 ltac:(lia))
              (serve_pieces_fit 8192 abcde 2 ltac:(lia) ltac:(lia))
              ltac:(lia))
    as (evs & st & os & R & F & _ & _ & D & _ & Rt & P).
  exists evs, st, os.
  split; [exact R|]. split; [exact F|]. split; [exact D|].
  split; [exact Rt|exact P].
Defined.
